(** * Leaf-DB: the store and persistence layer of [src/model.js]

    A shallow embedding of the [LeafDB] class: the in-memory table
    [this.data], soft deletion through the [$deleted] marker, the batch
    operations [insert], [findById], [find], [updateById], [update],
    [deleteById], [delete], [drop], and the [load] / [persist] pair over a
    newline-delimited JSON file.

    Modelling conventions.
    - JavaScript values are the JSON-like values of [value]; numbers are
      restricted to integers, strings are sequences of 8-bit characters.
      [JSON.parse] therefore refuses a number with a fraction or an
      exponent and a [\u] escape above [00FF]; the statements about the
      contents of a file are made for text without them ([plain_json]).
    - A JavaScript object is the ordered list of its own enumerable
      properties; [prop_set] keeps the engine's own-key order (array-index
      keys first, ascending, then the other keys in creation order).
      The table is the list of the own properties of [this.data], and
      [this.data[k]] is read as the own property [k] or [undefined].  In
      JavaScript a key that is not own but names a member of
      [Object.prototype] reads that member, and an assignment to
      [__proto__] replaces the prototype: the statements about an
      identifier given by the caller are made for identifiers that are keys
      of the table or name no such member ([inherited], [reads_own]), and
      those about the lines of a file for lines that do not name
      [__proto__] ([sets_prototype]).
    - Each method is a function from the instance (and, where the method
      touches them, the file system and the source of random identifiers) to
      a [completion] together with the new state.  Loops with an early
      [return] are fixpoints over the remaining keys that thread the table.
    - The elements of an [insert] batch are taken to be distinct objects. *)

From Stdlib Require Import ZArith String Ascii List Bool Lia DecimalString.
From Stdlib Require DecimalFacts DecimalPos.
From stdpp Require Import gmap strings list.

Open Scope string_scope.
Open Scope list_scope.

(** ** Values *)

Set Warnings "-register-all".

Inductive value : Type :=
| VUndef
| VNull
| VBool (b : bool)
| VNum (n : Z)
| VStr (s : string)
| VArr (l : list value)
| VObj (o : list (string * value)).

(** An object: own enumerable properties, in own-key order. *)
Abbreviation obj := (list (string * value)).

(** The table [this.data]: identifier -> document. *)
Abbreviation table := (list (string * obj)).

(** Induction on a value that reaches into arrays and objects. *)
Section ValueInduction.
Variable P : value -> Prop.
Hypothesis P_undef : P VUndef.
Hypothesis P_null : P VNull.
Hypothesis P_bool : forall b, P (VBool b).
Hypothesis P_num : forall n, P (VNum n).
Hypothesis P_str : forall s, P (VStr s).
Hypothesis P_arr : forall l, Forall P l -> P (VArr l).
Hypothesis P_obj : forall o, Forall (fun kv => P (snd kv)) o -> P (VObj o).

(** Induction on a value, with the hypothesis for every element of an
    array and every member of an object. *)
Fixpoint value_nested_ind (v : value) : P v :=
  match v with
  | VUndef => P_undef
  | VNull => P_null
  | VBool b => P_bool b
  | VNum n => P_num n
  | VStr s => P_str s
  | VArr l =>
      P_arr l
        ((fix elements (l : list value) : Forall P l :=
            match l with
            | [] => List.Forall_nil P
            | e :: l' =>
                @List.Forall_cons _ P e l' (value_nested_ind e) (elements l')
            end) l)
  | VObj o =>
      P_obj o
        ((fix members (o : obj) : Forall (fun kv => P (snd kv)) o :=
            match o with
            | [] => List.Forall_nil _
            | kv :: o' =>
                @List.Forall_cons _ (fun kv => P (snd kv)) kv o'
                  (value_nested_ind (snd kv)) (members o')
            end) o)
  end.
End ValueInduction.

(** ** Own properties *)

Section Props.
Context {A : Type}.

(** [o[k]] restricted to own properties. *)
Fixpoint prop_get (o : list (string * A)) (k : string) : option A :=
  match o with
  | [] => None
  | (k', v) :: o' => if String.eqb k k' then Some v else prop_get o' k
  end.

Definition prop_has (o : list (string * A)) (k : string) : bool :=
  match prop_get o k with Some _ => true | None => false end.

(** Overwrite the value of an existing own property, keeping its place. *)
Fixpoint prop_replace (o : list (string * A)) (k : string) (v : A)
  : list (string * A) :=
  match o with
  | [] => []
  | (k', v') :: o' =>
      if String.eqb k k' then (k', v) :: o'
      else (k', v') :: prop_replace o' k v
  end.
End Props.

(** *** Array-index keys

    A property key is an array index when it is the canonical decimal form
    of an integer in [0, 2^32 - 2]; such keys are enumerated first, in
    ascending numeric order. *)

Definition digit_of (c : ascii) : option N :=
  let n := N_of_ascii c in
  if (48 <=? n)%N && (n <=? 57)%N then Some (n - 48)%N else None.

Fixpoint digits_value (s : string) (acc : N) : option N :=
  match s with
  | EmptyString => Some acc
  | String c s' =>
      match digit_of c with
      | Some d => digits_value s' (acc * 10 + d)%N
      | None => None
      end
  end.

Definition array_index (k : string) : option N :=
  match k with
  | EmptyString => None
  | String "0" EmptyString => Some 0%N
  | String "0" _ => None
  | _ =>
      match digits_value k 0%N with
      | Some n => if (n <=? 4294967294)%N then Some n else None
      | None => None
      end
  end.

Section PropSet.
Context {A : Type}.

(** Place a new array-index key [n] before the first key that is not an
    array index or is a larger one. *)
Fixpoint prop_insert_index (o : list (string * A)) (n : N) (k : string)
  (v : A) : list (string * A) :=
  match o with
  | [] => [(k, v)]
  | (k', v') :: o' =>
      match array_index k' with
      | Some n' =>
          if (n' <? n)%N then (k', v') :: prop_insert_index o' n k v
          else (k, v) :: (k', v') :: o'
      | None => (k, v) :: (k', v') :: o'
      end
  end.

(** [o[k] = v] on own data properties. *)
Definition prop_set (o : list (string * A)) (k : string) (v : A)
  : list (string * A) :=
  if prop_has o k then prop_replace o k v
  else match array_index k with
       | Some n => prop_insert_index o n k v
       | None => o ++ [(k, v)]
       end.

(** [Object.keys(o)] and [Object.values(o)]. *)
Definition Object_keys (o : list (string * A)) : list string := map fst o.
Definition Object_values (o : list (string * A)) : list A := map snd o.
End PropSet.

(** ** Coercions *)

(** [!!v] *)
Definition truthy (v : value) : bool :=
  match v with
  | VUndef | VNull => false
  | VBool b => b
  | VNum n => negb (n =? 0)%Z
  | VStr s => negb (String.eqb s "")
  | VArr _ | VObj _ => true
  end.

(** [v.k] for a value that is neither [null] nor [undefined]; a primitive
    or an array has no such member. *)
Definition member (v : value) (k : string) : value :=
  match v with
  | VObj o => match prop_get o k with Some x => x | None => VUndef end
  | _ => VUndef
  end.

(** [d.k] for a document. *)
Definition field (d : obj) (k : string) : value := member (VObj d) k.

Definition number_to_string (n : Z) : string :=
  NilZero.string_of_int (Z.to_int n).

(** [String(v)], the coercion applied to a computed property key. *)
Fixpoint toPropertyKey (v : value) : string :=
  match v with
  | VUndef => "undefined"
  | VNull => "null"
  | VBool true => "true"
  | VBool false => "false"
  | VNum n => number_to_string n
  | VStr s => s
  | VArr l =>
      String.concat ","
        (map (fun e => match e with
                       | VUndef | VNull => ""
                       | _ => toPropertyKey e
                       end) l)
  | VObj _ => "[object Object]"
  end.

(** [toArray] of [utils]: an array is taken as it is, anything else is
    wrapped in a singleton. *)
Definition toArray (any : value) : list value :=
  match any with
  | VArr l => l
  | _ => [any]
  end.

(** [this.data[k]]: the stored document or [undefined]. *)
Definition table_lookup (data : table) (k : string) : value :=
  match prop_get data k with
  | Some d => VObj d
  | None => VUndef
  end.

(** A stored document is a tombstone when its [$deleted] member is truthy. *)
Definition deleted (d : obj) : bool := truthy (field d "$deleted").
Definition live (d : obj) : bool := negb (deleted d).

(** ** Outcomes *)

Inductive error : Type :=
| InvalidNewDocs
| NotAnObject
| NotAValidDocument
| IdExists (k : string)
| InvalidId
| InvalidQuery
| InvalidUpdate
| MemoryMode
| MissingId
| SyntaxError
| NoSuchPath
| Raised (msg : string).

(** A call of a collaborator returns or throws. *)
Inductive result (A : Type) : Type :=
| Ok (a : A)
| Err (e : error).
Arguments Ok {A} a.
Arguments Err {A} e.

Definition bind {A B : Type} (r : result A) (k : A -> result B) : result B :=
  match r with
  | Ok a => k a
  | Err e => Err e
  end.

Notation "'let*' x := r 'in' k" := (bind r (fun x => k))
  (at level 10, x name, r at level 200, k at level 200).

Fixpoint mapM {A B : Type} (f : A -> result B) (l : list A)
  : result (list B) :=
  match l with
  | [] => Ok []
  | a :: l' => let* b := f a in let* bs := mapM f l' in Ok (b :: bs)
  end.

(** How a method ends: a plain [return], a resolved or a rejected promise,
    or an exception thrown to the caller. *)
Inductive completion : Type :=
| Returned (v : value)
| Resolved (v : value)
| Rejected (e : error)
| Thrown (e : error).

(** ** Collaborators

    [model.js] imports its predicates from [./validation] and its document
    transformers from [./modifiers]; neither file is part of the sources.
    The store is written against these two interfaces. *)

(** Modelled from the spec: [isObject] of the missing [validation.js]
    ("true iff v is a Document (not sequence, not null, not scalar)"). *)
Definition isObject (v : value) : bool :=
  match v with VObj _ => true | _ => false end.

(** Modelled from the spec: [isEmptyObject] of the missing [validation.js]
    ("true iff v is a Document with zero fields"). *)
Definition isEmptyObject (v : value) : bool :=
  match v with VObj [] => true | _ => false end.

Class Validation : Type := {
  isQueryMatch : obj -> value -> result bool;
  hasModifiers : value -> bool;
  isInvalidDoc : value -> bool;
  hasMixedModifiers : value -> bool
}.

Class Modifiers : Type := {
  objectModify : obj -> value -> result obj;
  objectProject : value -> option (list string) -> result value
}.

(** ** JSON

    [JSON.stringify] and [JSON.parse] of the host, on the values of the
    model. *)

Module JSON.

Definition dquote : ascii := "034"%char.
Definition backslash : ascii := "\"%char.

Definition hex_digit (n : N) : ascii :=
  ascii_of_N (if (n <? 10)%N then 48 + n else 87 + n)%N.

(** The escape of one character inside a string literal. *)
Definition escape_char (c : ascii) : string :=
  let n := N_of_ascii c in
  if Ascii.eqb c dquote then String backslash (String dquote "")
  else if Ascii.eqb c backslash then String backslash (String backslash "")
  else if (n =? 8)%N then String backslash "b"
  else if (n =? 12)%N then String backslash "f"
  else if (n =? 10)%N then String backslash "n"
  else if (n =? 13)%N then String backslash "r"
  else if (n =? 9)%N then String backslash "t"
  else if (n <? 32)%N then
    String backslash
      (String "u" (String "0" (String "0"
         (String (hex_digit (n / 16)) (String (hex_digit (n mod 16)) "")))))
  else String c "".

Fixpoint escape (s : string) : string :=
  match s with
  | EmptyString => ""
  | String c s' => (escape_char c ++ escape s')%string
  end.

Definition quote (s : string) : string :=
  String dquote (escape s ++ String dquote "")%string.

(** [JSON.stringify(v)]; [None] is the [undefined] it returns for
    [undefined].  An [undefined] array element is written [null], an
    [undefined] member is left out. *)
Fixpoint stringify (v : value) : option string :=
  match v with
  | VUndef => None
  | VNull => Some "null"
  | VBool true => Some "true"
  | VBool false => Some "false"
  | VNum n => Some (number_to_string n)
  | VStr s => Some (quote s)
  | VArr l =>
      Some ("[" ++
            String.concat ","
              (map (fun e => match stringify e with
                             | Some t => t
                             | None => "null"
                             end) l) ++ "]")%string
  | VObj o =>
      Some ("{" ++
            String.concat ","
              (flat_map (fun kv => match stringify (snd kv) with
                                   | Some t =>
                                       [(quote (fst kv) ++ ":" ++ t)%string]
                                   | None => []
                                   end) o) ++ "}")%string
  end.

(** *** Parsing *)

Inductive parsed (A : Type) : Type :=
| Parsed (a : A) (rest : string)
| Malformed
| Exhausted.
Arguments Parsed {A} a rest.
Arguments Malformed {A}.
Arguments Exhausted {A}.

Definition is_ws (c : ascii) : bool :=
  let n := N_of_ascii c in
  (n =? 32)%N || (n =? 9)%N || (n =? 10)%N || (n =? 13)%N.

Fixpoint skip_ws (s : string) : string :=
  match s with
  | String c s' => if is_ws c then skip_ws s' else s
  | EmptyString => s
  end.

Fixpoint strip_prefix (p s : string) : option string :=
  match p, s with
  | EmptyString, _ => Some s
  | String a p', String b s' =>
      if Ascii.eqb a b then strip_prefix p' s' else None
  | String _ _, EmptyString => None
  end.

Definition hex_value (c : ascii) : option N :=
  let n := N_of_ascii c in
  if (48 <=? n)%N && (n <=? 57)%N then Some (n - 48)%N
  else if (97 <=? n)%N && (n <=? 102)%N then Some (n - 87)%N
  else if (65 <=? n)%N && (n <=? 70)%N then Some (n - 55)%N
  else None.

(** The character a [\uXXXX] escape denotes; code units above 255 are
    outside the 8-bit strings of the model and are refused. *)
Definition unicode_escape (a b c d : ascii) : option ascii :=
  match hex_value a, hex_value b, hex_value c, hex_value d with
  | Some 0%N, Some 0%N, Some x, Some y => Some (ascii_of_N (16 * x + y))
  | _, _, _, _ => None
  end.

(** The body of a string literal, after its opening quote. *)
Fixpoint parse_string (s : string) : parsed string :=
  match s with
  | EmptyString => Malformed
  | String c r =>
      if Ascii.eqb c dquote then Parsed "" r
      else if Ascii.eqb c backslash then
        match r with
        | String e r1 =>
            let continue (x : ascii) (r' : parsed string) :=
              match r' with
              | Parsed t r2 => Parsed (String x t) r2
              | Malformed => Malformed
              | Exhausted => Exhausted
              end in
            if Ascii.eqb e dquote then continue dquote (parse_string r1)
            else if Ascii.eqb e backslash
                 then continue backslash (parse_string r1)
            else if Ascii.eqb e "/" then continue "/"%char (parse_string r1)
            else if Ascii.eqb e "b" then continue "008"%char (parse_string r1)
            else if Ascii.eqb e "f" then continue "012"%char (parse_string r1)
            else if Ascii.eqb e "n" then continue "010"%char (parse_string r1)
            else if Ascii.eqb e "r" then continue "013"%char (parse_string r1)
            else if Ascii.eqb e "t" then continue "009"%char (parse_string r1)
            else if Ascii.eqb e "u" then
              match r1 with
              | String h1 (String h2 (String h3 (String h4 r2))) =>
                  match unicode_escape h1 h2 h3 h4 with
                  | Some x => continue x (parse_string r2)
                  | None => Malformed
                  end
              | _ => Malformed
              end
            else Malformed
        | EmptyString => Malformed
        end
      else if (N_of_ascii c <? 32)%N then Malformed
      else match parse_string r with
           | Parsed t r' => Parsed (String c t) r'
           | Malformed => Malformed
           | Exhausted => Exhausted
           end
  end.

(** The digits at the head of [s], as a number, and what follows them. *)
Fixpoint take_digits (s : string) (acc : N) : N * string :=
  match s with
  | String c r =>
      match digit_of c with
      | Some d => take_digits r (acc * 10 + d)%N
      | None => (acc, s)
      end
  | EmptyString => (acc, s)
  end.

(** An unsigned integer literal: [0], or digits that do not start with
    [0].  A fraction or an exponent denotes a number outside the integers
    of the model and is refused. *)
Definition parse_natural (s : string) : parsed N :=
  match s with
  | String c r =>
      match digit_of c with
      | Some d =>
          let '(n, r') :=
            if (d =? 0)%N then (0%N, r) else take_digits r d in
          match r' with
          | String x _ =>
              if Ascii.eqb x "." || Ascii.eqb x "e" || Ascii.eqb x "E"
              then Malformed else Parsed n r'
          | EmptyString => Parsed n r'
          end
      | None => Malformed
      end
  | EmptyString => Malformed
  end.

Definition parse_literal (lit : string) (v : value) (s : string)
  : parsed value :=
  match strip_prefix lit s with
  | Some r => Parsed v r
  | None => Malformed
  end.

Fixpoint parse_value (fuel : nat) (s : string) : parsed value :=
  match fuel with
  | O => Exhausted
  | S fuel' =>
      match skip_ws s with
      | EmptyString => Malformed
      | String c r =>
          if Ascii.eqb c "{" then
            match skip_ws r with
            | String x r' =>
                if Ascii.eqb x "}" then Parsed (VObj []) r'
                else parse_members fuel' r []
            | EmptyString => Malformed
            end
          else if Ascii.eqb c "[" then
            match skip_ws r with
            | String x r' =>
                if Ascii.eqb x "]" then Parsed (VArr []) r'
                else parse_elements fuel' r []
            | EmptyString => Malformed
            end
          else if Ascii.eqb c dquote then
            match parse_string r with
            | Parsed t r' => Parsed (VStr t) r'
            | Malformed => Malformed
            | Exhausted => Exhausted
            end
          else if Ascii.eqb c "n" then parse_literal "null" VNull (String c r)
          else if Ascii.eqb c "t" then
            parse_literal "true" (VBool true) (String c r)
          else if Ascii.eqb c "f" then
            parse_literal "false" (VBool false) (String c r)
          else if Ascii.eqb c "-" then
            match parse_natural r with
            | Parsed n r' => Parsed (VNum (- Z.of_N n)) r'
            | Malformed => Malformed
            | Exhausted => Exhausted
            end
          else
            match parse_natural (String c r) with
            | Parsed n r' => Parsed (VNum (Z.of_N n)) r'
            | Malformed => Malformed
            | Exhausted => Exhausted
            end
      end
  end
with parse_elements (fuel : nat) (s : string) (acc : list value)
  : parsed value :=
  match fuel with
  | O => Exhausted
  | S fuel' =>
      match parse_value fuel' s with
      | Parsed v r =>
          match skip_ws r with
          | String c r' =>
              if Ascii.eqb c "," then parse_elements fuel' r' (acc ++ [v])
              else if Ascii.eqb c "]" then Parsed (VArr (acc ++ [v])) r'
              else Malformed
          | EmptyString => Malformed
          end
      | Malformed => Malformed
      | Exhausted => Exhausted
      end
  end
with parse_members (fuel : nat) (s : string) (acc : obj) : parsed value :=
  match fuel with
  | O => Exhausted
  | S fuel' =>
      match skip_ws s with
      | String q r =>
          if Ascii.eqb q dquote then
            match parse_string r with
            | Parsed k r1 =>
                match skip_ws r1 with
                | String x r2 =>
                    if Ascii.eqb x ":" then
                      match parse_value fuel' r2 with
                      | Parsed v r3 =>
                          match skip_ws r3 with
                          | String c r4 =>
                              if Ascii.eqb c "," then
                                parse_members fuel' r4 (prop_set acc k v)
                              else if Ascii.eqb c "}" then
                                Parsed (VObj (prop_set acc k v)) r4
                              else Malformed
                          | EmptyString => Malformed
                          end
                      | Malformed => Malformed
                      | Exhausted => Exhausted
                      end
                    else Malformed
                | EmptyString => Malformed
                end
            | Malformed => Malformed
            | Exhausted => Exhausted
            end
          else Malformed
      | EmptyString => Malformed
      end
  end.

(** [JSON.parse(s)]: one value, then only white space.  A [SyntaxError]
    is the exception the host throws. *)
Definition parse (s : string) : result value :=
  match parse_value (2 * String.length s + 2) s with
  | Parsed v r =>
      match skip_ws r with
      | EmptyString => Ok v
      | String _ _ => Err SyntaxError
      end
  | Malformed => Err SyntaxError
  | Exhausted => Err (Raised "fuel")
  end.

End JSON.

(** ** The instance and its file *)

Record LeafDB : Type := mkLeafDB {
  root : option string;
  strict : bool;
  data : table;
  file : option string
}.

Definition set_data (db : LeafDB) (t : table) : LeafDB :=
  mkLeafDB (root db) (strict db) t (file db).

(** The file system, as far as the store sees it: path -> contents. *)
Abbreviation files := (gmap string string).

Definition LF : ascii := "010"%char.

(** [payload.join('\n')]; an [undefined] element is written as nothing. *)
Definition join_lines (payload : list (option string)) : string :=
  String.concat (String LF "") (map (fun x => default "" x) payload).

(** [s.split('\n')] *)
Fixpoint split_lines (s : string) : list string :=
  match s with
  | EmptyString => [""]
  | String c r =>
      if Ascii.eqb c LF then "" :: split_lines r
      else match split_lines r with
           | l :: ls => String c l :: ls
           | [] => [String c ""]
           end
  end.

(** [raw.replace('\\', '\\\\')]: with a string pattern only the first
    backslash is replaced, by two backslashes. *)
Fixpoint replace_first_backslash (raw : string) : string :=
  match raw with
  | EmptyString => ""
  | String c r =>
      if Ascii.eqb c JSON.backslash
      then String JSON.backslash (String JSON.backslash r)
      else String c (replace_first_backslash r)
  end.

(** *** persist *)

(** The loop of [persist].  A stored document is an object and
    [JSON.stringify] is total on the values of the model, so nothing in the
    [try] block throws and the [catch] is never entered. *)
Fixpoint persist_payload (docs : list obj) : list (option string) :=
  match docs with
  | [] => []
  | doc :: docs' =>
      if deleted doc then persist_payload docs'
      else JSON.stringify (VObj doc) :: persist_payload docs'
  end.

(** [persist(data)]; [Err] is the exception thrown in memory mode. *)
Definition persist_table (db : LeafDB) (t : table) (fs : files)
  : result unit * files :=
  match file db with
  | None => (Err MemoryMode, fs)
  | Some f =>
      (Ok tt, <[f := join_lines (persist_payload (Object_values t))]> fs)
  end.

(** [persist()], with the default argument [this.data]. *)
Definition persist (db : LeafDB) (fs : files) : result unit * files :=
  persist_table db (data db) fs.

(** *** load *)

(** The body of the [try] block for one non-empty line. *)
Definition load_line (raw : string) (t : table) : result table :=
  let* doc := JSON.parse (replace_first_backslash raw) in
  match doc with
  | VNull => Err (Raised "TypeError")
  | VObj d =>
      if truthy (field d "_id")
      then Ok (prop_set t (toPropertyKey (field d "_id")) d)
      else Err MissingId
  | _ => Err MissingId
  end.

Fixpoint load_lines (strict : bool) (lines : list string) (t : table)
  (corrupted : list string) : table * result (list string) :=
  match lines with
  | [] => (t, Ok corrupted)
  | raw :: lines' =>
      if String.eqb raw "" then load_lines strict lines' t corrupted
      else match load_line raw t with
           | Ok t' => load_lines strict lines' t' corrupted
           | Err e =>
               if strict then (t, Err e)
               else load_lines strict lines' t (corrupted ++ [raw])
           end
  end.

(** [!!this.root] *)
Definition root_given (db : LeafDB) : bool :=
  match root db with
  | Some r => negb (String.eqb r "")
  | None => false
  end.

(** [load()]: the list of corrupted lines, or the exception thrown. *)
Definition load (db : LeafDB) (fs : files)
  : result (list string) * LeafDB * files :=
  if negb (root_given db) then (Err MemoryMode, db, fs)
  else
    match file db with
    | None => (Err NoSuchPath, db, fs)
    | Some f =>
        match fs !! f with
        | Some content =>
            let '(t, r) :=
              load_lines (strict db) (split_lines content) (data db) [] in
            (r, set_data db t, fs)
        | None => (Ok [], db, <[f := ""]> fs)
        end
    end.

(** The constructor.  [path.resolve] is taken to join the root and the
    file name; directories are not modelled. *)
Definition new_LeafDB (name : string) (root : option string)
  (autoload strict : bool) (fs : files) : result LeafDB * files :=
  let this :=
    mkLeafDB root strict []
      (match root with
       | Some r =>
           if negb (String.eqb r "") && negb (String.eqb name "")
           then Some (r ++ "/" ++ name ++ ".txt")%string
           else None
       | None => None
       end) in
  if root_given this && autoload then
    match load this fs with
    | (Ok _, this', fs') => (Ok this', fs')
    | (Err e, _, fs') => (Err e, fs')
    end
  else (Ok this, fs).

(** ** The store *)

(** A parameter with a default value: the default stands in for
    [undefined]. *)
Definition or_default (v dflt : value) : value :=
  match v with
  | VUndef => dflt
  | _ => v
  end.

(** [!key || typeof key !== 'string'] fails: the key is a non-empty
    string. *)
Definition valid_key (key : value) : option string :=
  match key with
  | VStr k => if String.eqb k "" then None else Some k
  | _ => None
  end.

(** [{ ...v }] for the objects that reach a spread. *)
Definition spread (v : value) : obj :=
  match v with
  | VObj o => o
  | _ => []
  end.

Section Store.
Context `{Validation} `{Modifiers}.

(** [getUid] of [utils] draws random bytes; [getUid n] is the identifier
    the [n]-th draw produces. *)
Variable getUid : nat -> string.

(** *** insert *)

(** The validating loop: the documents to insert, with the number of
    identifiers drawn so far. *)
Fixpoint insert_check (t : table) (a : list value) (seed : nat)
  : result (list obj) * nat :=
  match a with
  | [] => (Ok [], seed)
  | newDoc :: a' =>
      if negb (isObject newDoc) then (Err NotAnObject, seed)
      else if isInvalidDoc newDoc then (Err NotAValidDocument, seed)
      else
        let d := spread newDoc in
        let '(d1, seed1) :=
          if truthy (field d "_id") then (d, seed)
          else (prop_set d "_id" (VStr (getUid seed)), S seed) in
        let k := toPropertyKey (field d1 "_id") in
        if prop_has t k then (Err (IdExists k), seed1)
        else
          let '(r, seed2) := insert_check t a' seed1 in
          (let* inserted := r in Ok (d1 :: inserted), seed2)
  end.

(** The inserting loop. *)
Fixpoint insert_all (t : table) (inserted : list obj) : table :=
  match inserted with
  | [] => t
  | newDoc :: inserted' =>
      insert_all (prop_set t (toPropertyKey (field newDoc "_id")) newDoc)
        inserted'
  end.

Definition insert (db : LeafDB) (fs : files) (seed : nat)
  (newDocs : value) (persist_opt : bool)
  : completion * LeafDB * files * nat :=
  match newDocs with
  | VArr _ | VObj _ =>
      match insert_check (data db) (toArray newDocs) seed with
      | (Err e, seed') => (Rejected e, db, fs, seed')
      | (Ok inserted, seed') =>
          let db' := set_data db (insert_all (data db) inserted) in
          if persist_opt then
            match persist db' fs with
            | (Ok _, fs') => (Resolved VUndef, db', fs', seed')
            | (Err e, fs') => (Thrown e, db', fs', seed')
            end
          else (Resolved VUndef, db', fs, seed')
      end
  | _ => (Rejected InvalidNewDocs, db, fs, seed)
  end.

(** *** findById *)

Fixpoint findById_loop (t : table) (keys : list value)
  (projection : option (list string)) : result (list value) :=
  match keys with
  | [] => Ok []
  | key :: keys' =>
      match valid_key key with
      | None => Err InvalidId
      | Some k =>
          let* doc := objectProject (table_lookup t k) projection in
          let* payload := findById_loop t keys' projection in
          if truthy doc && negb (truthy (member doc "$deleted"))
          then Ok (doc :: payload)
          else Ok payload
      end
  end.

Definition findById (db : LeafDB) (_id : value)
  (projection : option (list string)) : completion :=
  match findById_loop (data db) (toArray _id) projection with
  | Ok payload => Resolved (VArr payload)
  | Err e => Rejected e
  end.

(** *** find *)

Fixpoint find_loop (docs : list obj) (query : value)
  (projection : option (list string)) : result (list value) :=
  match docs with
  | [] => Ok []
  | doc :: docs' =>
      let* hit :=
        if deleted doc then Ok false else isQueryMatch doc query in
      if hit then
        let* shown := objectProject (VObj doc) projection in
        let* payload := find_loop docs' query projection in
        Ok (shown :: payload)
      else find_loop docs' query projection
  end.

Definition find (db : LeafDB) (query : value)
  (projection : option (list string)) : completion :=
  let query := or_default query (VObj []) in
  if negb (truthy query) || negb (isObject query)
  then Rejected InvalidQuery
  else if isEmptyObject query then
    match mapM (fun doc => objectProject (VObj doc) projection)
            (Object_values (data db)) with
    | Ok payload => Resolved (VArr payload)
    | Err e => Rejected e
    end
  else
    match find_loop (Object_values (data db)) query projection with
    | Ok payload => Resolved (VArr payload)
    | Err e => Rejected e
    end.

(** *** updateById and update *)

Definition invalid_update (update : value) : bool :=
  negb (isObject update)
  || truthy (member update "_id")
  || hasMixedModifiers update
  || (negb (hasModifiers update) && isInvalidDoc update).

(** [hasModifiers(update) ? objectModify(doc, update) : update] *)
Definition new_doc (doc : obj) (update : value) : result obj :=
  if hasModifiers update then objectModify doc update
  else Ok (spread update).

(** The body run for one targeted live document: store
    [{ ...newDoc, _id: key }] under [key], then project a copy. *)
Definition update_one (t : table) (key : string) (doc : obj)
  (update : value) (projection : option (list string))
  : table * result value :=
  match new_doc doc update with
  | Err e => (t, Err e)
  | Ok newDoc =>
      let stored := prop_set newDoc "_id" (VStr key) in
      (prop_set t key stored, objectProject (VObj stored) projection)
  end.

Fixpoint updateById_loop (t : table) (keys : list value) (update : value)
  (projection : option (list string)) : table * result (list value) :=
  match keys with
  | [] => (t, Ok [])
  | key :: keys' =>
      match valid_key key with
      | None => (t, Err InvalidId)
      | Some k =>
          match prop_get t k with
          | Some doc =>
              if deleted doc then updateById_loop t keys' update projection
              else
                match update_one t k doc update projection with
                | (t1, Err e) => (t1, Err e)
                | (t1, Ok shown) =>
                    let '(t2, r) :=
                      updateById_loop t1 keys' update projection in
                    (t2, let* payload := r in Ok (shown :: payload))
                end
          | None => updateById_loop t keys' update projection
          end
      end
  end.

Definition updateById (db : LeafDB) (_id update : value)
  (projection : option (list string)) : completion * LeafDB :=
  let update := or_default update (VObj []) in
  if invalid_update update then (Rejected InvalidUpdate, db)
  else
    match updateById_loop (data db) (toArray _id) update projection with
    | (t, Ok payload) => (Resolved (VArr payload), set_data db t)
    | (t, Err e) => (Rejected e, set_data db t)
    end.

(** The loop of [update] runs over the keys the table had at the start and
    reads the current entry of each. *)
Fixpoint update_loop (t : table) (k : list string) (query update : value)
  (projection : option (list string)) : table * result (list value) :=
  match k with
  | [] => (t, Ok [])
  | _id :: k' =>
      match prop_get t _id with
      | None => (t, Err (Raised "TypeError"))
      | Some doc =>
          match (if deleted doc then Ok false
                 else isQueryMatch doc query) with
          | Err e => (t, Err e)
          | Ok false => update_loop t k' query update projection
          | Ok true =>
              match update_one t _id doc update projection with
              | (t1, Err e) => (t1, Err e)
              | (t1, Ok shown) =>
                  let '(t2, r) :=
                    update_loop t1 k' query update projection in
                  (t2, let* payload := r in Ok (shown :: payload))
              end
          end
      end
  end.

Definition update (db : LeafDB) (query update : value)
  (projection : option (list string)) : completion * LeafDB :=
  let query := or_default query (VObj []) in
  let update := or_default update (VObj []) in
  if negb (isObject query) then (Rejected InvalidQuery, db)
  else if invalid_update update then (Rejected InvalidUpdate, db)
  else
    match update_loop (data db) (Object_keys (data db)) query update
            projection with
    | (t, Ok payload) => (Resolved (VArr payload), set_data db t)
    | (t, Err e) => (Rejected e, set_data db t)
    end.

(** *** deleteById and delete *)

(** [{ ...doc, $deleted: true }] *)
Definition tombstone (doc : obj) : obj :=
  prop_set doc "$deleted" (VBool true).

Fixpoint deleteById_loop (t : table) (keys : list value) (deleted_n : Z)
  : table * result Z :=
  match keys with
  | [] => (t, Ok deleted_n)
  | key :: keys' =>
      match valid_key key with
      | None => (t, Err InvalidId)
      | Some k =>
          match prop_get t k with
          | Some doc =>
              if deleted doc then deleteById_loop t keys' deleted_n
              else deleteById_loop (prop_set t k (tombstone doc)) keys'
                     (deleted_n + 1)
          | None => deleteById_loop t keys' deleted_n
          end
      end
  end.

(** On success [deleteById] returns the bare count, not a promise. *)
Definition deleteById (db : LeafDB) (_id : value) : completion * LeafDB :=
  match deleteById_loop (data db) (toArray _id) 0 with
  | (t, Ok n) => (Returned (VNum n), set_data db t)
  | (t, Err e) => (Rejected e, set_data db t)
  end.

Fixpoint delete_loop (t : table) (k : list string) (query : value)
  (removed : Z) : table * result Z :=
  match k with
  | [] => (t, Ok removed)
  | _id :: k' =>
      match prop_get t _id with
      | None => (t, Err (Raised "TypeError"))
      | Some doc =>
          match (if deleted doc then Ok false
                 else isQueryMatch doc query) with
          | Err e => (t, Err e)
          | Ok false => delete_loop t k' query removed
          | Ok true =>
              delete_loop (prop_set t _id (tombstone doc)) k' query
                (removed + 1)
          end
      end
  end.

Definition delete (db : LeafDB) (query : value) : completion * LeafDB :=
  let query := or_default query (VObj []) in
  if negb (isObject query) then (Rejected InvalidQuery, db)
  else
    match delete_loop (data db) (Object_keys (data db)) query 0 with
    | (t, Ok n) => (Resolved (VNum n), set_data db t)
    | (t, Err e) => (Rejected e, set_data db t)
    end.

(** *** drop *)

Definition drop (db : LeafDB) (fs : files) : completion * LeafDB * files :=
  let db' := set_data db [] in
  match file db' with
  | Some _ =>
      match persist db' fs with
      | (Ok _, fs') => (Resolved VUndef, db', fs')
      | (Err e, fs') => (Thrown e, db', fs')
      end
  | None => (Resolved VUndef, db', fs)
  end.

End Store.

(** ** The collaborators, as the specification describes them

    [validation.js] and [modifiers.js] are not among the sources.  The
    instances below follow the specification's description of them; they
    give the store concrete collaborators to run with. *)

Module SpecModel.

Definition starts_with (c : ascii) (s : string) : bool :=
  match s with
  | String a _ => Ascii.eqb a c
  | EmptyString => false
  end.

Fixpoint has_char (c : ascii) (s : string) : bool :=
  match s with
  | String a s' => Ascii.eqb a c || has_char c s'
  | EmptyString => false
  end.

(** A field name that "contains [.] or starts with [$]". *)
Definition illegal_name (k : string) : bool :=
  starts_with "$" k || has_char "." k.

(** Modelled from the spec: the recursive part of [isInvalidDoc] of the
    missing [validation.js] ("any field name contains [.] or starts with
    [$] (checked recursively into nested Documents, not into sequence
    elements), or any value is the absent sentinel"). *)
Fixpoint invalid_value (v : value) : bool :=
  match v with
  | VUndef => true
  | VObj o =>
      existsb (fun kv => illegal_name (fst kv) || invalid_value (snd kv)) o
  | _ => false
  end.

(** Modelled from the spec: [isInvalidDoc] of the missing
    [validation.js] ("true iff doc is not a Document, or ..."). *)
Definition isInvalidDoc (doc : value) : bool :=
  negb (isObject doc) || invalid_value doc.

Definition is_modifier (k : string) : bool :=
  String.eqb k "$set" || String.eqb k "$add" || String.eqb k "$push".

(** Modelled from the spec: [hasModifiers] of the missing [validation.js]
    ("true iff update is a Document with at least one top-level key in
    {[$set],[$add],[$push]}"). *)
Definition hasModifiers (update : value) : bool :=
  match update with
  | VObj o => existsb (fun kv => is_modifier (fst kv)) o
  | _ => false
  end.

(** Modelled from the spec: [hasMixedModifiers] of the missing
    [validation.js] ("true iff update has at least one reserved top-level
    key AND at least one non-reserved top-level key"). *)
Definition hasMixedModifiers (update : value) : bool :=
  match update with
  | VObj o =>
      existsb (fun kv => is_modifier (fst kv)) o
      && existsb (fun kv => negb (is_modifier (fst kv))) o
  | _ => false
  end.

(** *** Projection *)

(** Modelled from the spec: [objectProject] of the missing
    [modifiers.js] ("If fields is absent, returns doc unchanged.  If
    fields is an empty sequence or a sequence of names, returns a new
    Document containing only the top-level fields named, ... omitting any
    requested field not present on doc").  The specification gives the
    contract on documents only; any other value is returned as it is. *)
Definition objectProject (v : value) (projection : option (list string))
  : result value :=
  match projection, v with
  | None, _ => Ok v
  | Some fields, VObj d =>
      Ok (VObj (fold_left
                  (fun acc f => match prop_get d f with
                                | Some x => prop_set acc f x
                                | None => acc
                                end) fields []))
  | Some _, _ => Ok v
  end.

(** *** Modifiers *)

Definition modifier_fields (update : value) (keyword : string)
  : result obj :=
  match member update keyword with
  | VUndef => Ok []
  | VObj m => Ok m
  | _ => Err (Raised "modifier is not a document")
  end.

(** Modelled from the spec: the three modifiers of the missing
    [modifiers.js], one field at a time. *)
Fixpoint apply_set (d m : obj) : result obj :=
  match m with
  | [] => Ok d
  | (f, v) :: m' => apply_set (prop_set d f v) m'
  end.

Fixpoint apply_add (d m : obj) : result obj :=
  match m with
  | [] => Ok d
  | (f, v) :: m' =>
      match or_default (field d f) (VNum 0), v with
      | VNum cur, VNum n => apply_add (prop_set d f (VNum (cur + n))) m'
      | _, _ => Err (Raised "$add on a value that is not a number")
      end
  end.

Fixpoint apply_push (d m : obj) : result obj :=
  match m with
  | [] => Ok d
  | (f, v) :: m' =>
      match or_default (field d f) (VArr []) with
      | VArr cur => apply_push (prop_set d f (VArr (cur ++ [v]))) m'
      | _ => Err (Raised "$push on a value that is not a sequence")
      end
  end.

(** Modelled from the spec: [objectModify] of the missing [modifiers.js]
    ("Modifiers are applied in a fixed, deterministic order ([$set] then
    [$add] then [$push])"; [$set] overwrites a top-level field, [$add]
    adds to a number that defaults to 0, [$push] appends to a sequence
    that defaults to the empty one). *)
Definition objectModify (doc : obj) (update : value) : result obj :=
  let* sets := modifier_fields update "$set" in
  let* adds := modifier_fields update "$add" in
  let* pushes := modifier_fields update "$push" in
  let* d1 := apply_set doc sets in
  let* d2 := apply_add d1 adds in
  apply_push d2 pushes.

(** *** The query engine *)

Fixpoint split_at (c : ascii) (s : string) : list string :=
  match s with
  | EmptyString => [""]
  | String a r =>
      if Ascii.eqb a c then "" :: split_at c r
      else match split_at c r with
           | l :: ls => String a l :: ls
           | [] => [String a ""]
           end
  end.

(** The text before and after the first [c] of [s]. *)
Fixpoint break_at (c : ascii) (s : string) : option (string * string) :=
  match s with
  | EmptyString => None
  | String a r =>
      if Ascii.eqb a c then Some ("", r)
      else match break_at c r with
           | Some (before, after) => Some (String a before, after)
           | None => None
           end
  end.

Fixpoint all_digits (s : string) : bool :=
  match s with
  | EmptyString => true
  | String a r =>
      match digit_of a with
      | Some _ => all_digits r
      | None => false
      end
  end.

(** Modelled from the spec: path segments of the missing query engine
    ("additionally accept a trailing [[n]] form as an alias for the numeric
    segment n"): a segment [name[n]] stands for [name] and [n]. *)
Definition bracket_alias (seg : string) : list string :=
  match break_at "[" seg with
  | Some (name, rest) =>
      match break_at "]" rest with
      | Some (n, EmptyString) =>
          if all_digits n && negb (String.eqb n "")
          then (if String.eqb name "" then [n] else [name; n])
          else [seg]
      | _ => [seg]
      end
  | None => [seg]
  end.

Definition segments (path : string) : list string :=
  flat_map bracket_alias (split_at "." path).

(** Modelled from the spec: one indexing step of the missing query engine
    ("a mapping is indexed by field name, a sequence by numeric index"). *)
Definition index_step (v : value) (seg : string) : option value :=
  match v with
  | VObj o => prop_get o seg
  | VArr l =>
      match array_index seg with
      | Some n => nth_error l (N.to_nat n)
      | None => None
      end
  | _ => None
  end.

Definition resolve (doc : obj) (path : string) : option value :=
  fold_left (fun cur seg => match cur with
                            | Some v => index_step v seg
                            | None => None
                            end) (segments path) (Some (VObj doc)).

(** Modelled from the spec: deep equality of the missing query engine
    ("sequences equal iff same length and element-wise deep-equal in the
    same order; Documents equal iff same key set and each value deep-equal
    (key order irrelevant)"). *)
Fixpoint deep_equal (a b : value) : bool :=
  match a, b with
  | VUndef, VUndef => true
  | VNull, VNull => true
  | VBool x, VBool y => Bool.eqb x y
  | VNum x, VNum y => (x =? y)%Z
  | VStr x, VStr y => String.eqb x y
  | VArr l, VArr m =>
      (fix each (l m : list value) : bool :=
         match l, m with
         | [], [] => true
         | x :: l', y :: m' => deep_equal x y && each l' m'
         | _, _ => false
         end) l m
  | VObj o, VObj q =>
      (length o =? length q)%nat
      && (fix each (o : obj) : bool :=
            match o with
            | [] => true
            | (k, x) :: o' =>
                match prop_get q k with
                | Some y => deep_equal x y
                | None => false
                end && each o'
            end) o
  | _, _ => false
  end.

Definition compare_values (a b : value) : option comparison :=
  match a, b with
  | VNum x, VNum y => Some (x ?= y)%Z
  | VStr x, VStr y => Some (String.compare x y)
  | _, _ => None
  end.

Definition to_lower (c : ascii) : ascii :=
  let n := N_of_ascii c in
  if (65 <=? n)%N && (n <=? 90)%N then ascii_of_N (n + 32) else c.

Fixpoint lower (s : string) : string :=
  match s with
  | EmptyString => ""
  | String c r => String (to_lower c) (lower r)
  end.

Fixpoint contains (sub s : string) : bool :=
  match JSON.strip_prefix sub s with
  | Some _ => true
  | None =>
      match s with
      | String _ r => contains sub r
      | EmptyString => false
      end
  end.

(** Modelled from the spec: operators of the missing query engine whose
    value is a field -> argument map ("require every key in that map to
    satisfy the condition"); a field that does not resolve fails. *)
Definition every_field (doc : obj) (arg : value)
  (test : value -> value -> bool) : bool :=
  match arg with
  | VObj m =>
      forallb (fun kv => match resolve doc (fst kv) with
                         | Some v => test v (snd kv)
                         | None => false
                         end) m
  | _ => false
  end.

Definition resolves (doc : obj) (path : value) : bool :=
  match path with
  | VStr p => match resolve doc p with Some _ => true | None => false end
  | _ => false
  end.

(** Modelled from the spec: the condition one top-level key of a query
    states in the missing query engine, [$some] apart: an operator of the
    table of operators, or else a field path compared by deep equality. *)
Definition condition (doc : obj) (key : string) (arg : value) : bool :=
  let ordered (ok : comparison -> bool) :=
    every_field doc arg
      (fun v bound => match compare_values v bound with
                      | Some c => ok c
                      | None => false
                      end) in
  if String.eqb key "$gt" then
    ordered (fun c => match c with Gt => true | _ => false end)
  else if String.eqb key "$gte" then
    ordered (fun c => match c with Lt => false | _ => true end)
  else if String.eqb key "$lt" then
    ordered (fun c => match c with Lt => true | _ => false end)
  else if String.eqb key "$lte" then
    ordered (fun c => match c with Gt => false | _ => true end)
  else if String.eqb key "$not" then
    every_field doc arg (fun v x => negb (deep_equal v x))
  else if String.eqb key "$string" then
    every_field doc arg
      (fun v x => match v, x with
                  | VStr t, VStr sub => contains (lower sub) (lower t)
                  | _, _ => false
                  end)
  else if String.eqb key "$stringStrict" then
    every_field doc arg
      (fun v x => match v, x with
                  | VStr t, VStr sub => contains sub t
                  | _, _ => false
                  end)
  else if String.eqb key "$exists" then
    match arg with
    | VArr paths => forallb (resolves doc) paths
    | _ => resolves doc arg
    end
  else if String.eqb key "$has" then
    every_field doc arg
      (fun v x => match v with
                  | VArr l => existsb (fun e => deep_equal e x) l
                  | _ => false
                  end)
  else
    match resolve doc key with
    | Some v => deep_equal v arg
    | None => false
    end.

(** Modelled from the spec: [isQueryMatch] of the missing
    [validation.js] ("the expression matches iff every top-level key's
    condition holds"; [$some] holds when "at least one sub-query,
    recursively evaluated, holds"). *)
Fixpoint matches (doc : obj) (query : value) : bool :=
  match query with
  | VObj conds =>
      forallb (fun kv =>
                 if String.eqb (fst kv) "$some" then
                   match snd kv with
                   | VArr subs => existsb (matches doc) subs
                   | _ => false
                   end
                 else condition doc (fst kv) (snd kv)) conds
  | _ => false
  end.

#[export] Instance validation : Validation :=
  Build_Validation (fun doc query => Ok (matches doc query))
    hasModifiers isInvalidDoc hasMixedModifiers.

#[export] Instance modifiers : Modifiers :=
  Build_Modifiers objectModify objectProject.

End SpecModel.


(** ** Invariants of the table *)

(** The entry of [k] is a document whose [_id] is the string [k]. *)
Definition keeps_id (t : table) (k : string) : Prop :=
  exists d, prop_get t k = Some d /\ field d "_id" = VStr k.

(** Every entry satisfies [P], read through [this.data[k]]. *)
Definition entries (P : string -> obj -> Prop) (t : table) : Prop :=
  forall k d, prop_get t k = Some d -> P k d.

(** The [_id] of the document stored under [k] is the string [k]. *)
Definition id_is_key (t : table) : Prop :=
  entries (fun k d => field d "_id" = VStr k) t.


Definition id_is_keyb (t : table) : bool :=
  forallb (fun kd => match field (snd kd) "_id" with
                     | VStr s => String.eqb s (fst kd)
                     | _ => false
                     end) t.

Definition id_names_keyb (t : table) : bool :=
  forallb (fun kd => String.eqb (toPropertyKey (field (snd kd) "_id")) (fst kd))
    t.


(** ** Lines *)

(** The text has no line feed in it. *)
Fixpoint one_line (s : string) : bool :=
  match s with
  | EmptyString => true
  | String c r => negb (Ascii.eqb c LF) && one_line r
  end.

(** The row [persist] writes for a document. *)
Definition row (d : obj) : string := default "" (JSON.stringify (VObj d)).

(** ** Parser steps *)

(** A parser step that ends does so on a strictly shorter text, and it
    ends. *)
Definition consumes {A : Type} (s : string) (p : JSON.parsed A) : Prop :=
  match p with
  | JSON.Parsed _ r => String.length r < String.length s
  | JSON.Malformed => True
  | JSON.Exhausted => False
  end.

(** ** Identifiers [deleteById] passes over *)

(** An identifier the tombstoning loop passes over: well formed, and its
    entry is missing or already a tombstone. *)
Definition passed_over (t : table) (key : value) : Prop :=
  exists k, valid_key key = Some k
            /\ match prop_get t k with
               | Some d => deleted d = true
               | None => True
               end.

(** ** Sample instances *)

Module Sample.

(** A source of identifiers: [uid0], [uid1], ... *)
Definition getUid (n : nat) : string :=
  ("uid" ++ number_to_string (Z.of_nat n))%string.

(** [{ _id: 'a', x: 1 }], [{ _id: 'a', x: 2 }] and [{ _id: 'b' }]. *)
Definition doc_a : obj := [("_id", VStr "a"); ("x", VNum 1)].
Definition doc_a' : obj := [("_id", VStr "a"); ("x", VNum 2)].
Definition doc_b : obj := [("_id", VStr "b")].

(** [doc_a] once deleted: [{ _id: 'a', x: 1, $deleted: true }]. *)
Definition doc_a_deleted : obj :=
  [("_id", VStr "a"); ("x", VNum 1); ("$deleted", VBool true)].

(** [{ _id: 'a', path: 'C:\dir' }]: a string with one backslash. *)
Definition doc_path : obj := [("_id", VStr "a"); ("path", VStr "C:\dir")].


(** In-memory instances. *)
Definition memory (t : table) : LeafDB := mkLeafDB None false t None.
Definition empty : LeafDB := memory [].
Definition one_live : LeafDB := memory [("a", doc_a)].
Definition one_tombstone : LeafDB := memory [("a", doc_a_deleted)].
Definition tombstone_and_live : LeafDB :=
  memory [("a", doc_a_deleted); ("b", doc_b)].

(** File-backed instances over [root/db.txt]. *)
Definition db_file : string := "root/db.txt".
Definition on_disk (t : table) : LeafDB :=
  mkLeafDB (Some "root") false t (Some db_file).
Definition fresh : LeafDB := on_disk [].


End Sample.

(** ** Documents a query leaves alone *)

Section QueryDefs.
Context `{Validation}.

(** The query leaves a document alone: it is a tombstone or does not
    match. *)
Definition left_alone (query : value) (d : obj) : Prop :=
  deleted d = true \/ isQueryMatch d query = Ok false.

End QueryDefs.

(** ** What a line of the file holds *)

(** The key and the document [load] stores for a line: the line is not
    empty and, after the replacement [load] applies, parses to an object
    with a truthy [_id]. *)
Definition line_doc (raw : string) : option (string * obj) :=
  if String.eqb raw "" then None
  else match JSON.parse (replace_first_backslash raw) with
       | Ok (VObj d) =>
           if truthy (field d "_id")
           then Some (toPropertyKey (field d "_id"), d)
           else None
       | _ => None
       end.

(** A line [load] reports: not empty, and no document comes out of it. *)
Definition corrupted_line (raw : string) : bool :=
  negb (String.eqb raw "")
  && match line_doc raw with Some _ => false | None => true end.

(** The table after one line. *)
Definition store_line (t : table) (raw : string) : table :=
  match line_doc raw with
  | Some (k, d) => prop_set t k d
  | None => t
  end.

(** ** What comes back from JSON *)

(** The value [JSON.parse] reads from the text [JSON.stringify] writes: an
    [undefined] array element comes back as [null], an [undefined] member
    does not come back, and the members of an object are created again in
    the order they were written. *)
Fixpoint canon (v : value) : value :=
  match v with
  | VArr l =>
      VArr (map (fun e => match e with
                          | VUndef => VNull
                          | _ => canon e
                          end) l)
  | VObj o =>
      VObj (fold_left (fun acc kv => match snd kv with
                                     | VUndef => acc
                                     | _ =>
                                         prop_set acc (fst kv)
                                           (canon (snd kv))
                                     end) o [])
  | _ => v
  end.

(** What may follow a value inside an array or an object, or nothing. *)
Definition follows_value (rest : string) : bool :=
  match rest with
  | EmptyString => true
  | String c _ => Ascii.eqb c "," || Ascii.eqb c "]" || Ascii.eqb c "}"
  end.

(** The number the digits of [d] denote after the digits read so far. *)
Fixpoint uint_acc (d : Decimal.uint) (acc : N) : N :=
  match d with
  | Decimal.Nil => acc
  | Decimal.D0 l => uint_acc l (acc * 10 + 0)
  | Decimal.D1 l => uint_acc l (acc * 10 + 1)
  | Decimal.D2 l => uint_acc l (acc * 10 + 2)
  | Decimal.D3 l => uint_acc l (acc * 10 + 3)
  | Decimal.D4 l => uint_acc l (acc * 10 + 4)
  | Decimal.D5 l => uint_acc l (acc * 10 + 5)
  | Decimal.D6 l => uint_acc l (acc * 10 + 6)
  | Decimal.D7 l => uint_acc l (acc * 10 + 7)
  | Decimal.D8 l => uint_acc l (acc * 10 + 8)
  | Decimal.D9 l => uint_acc l (acc * 10 + 9)
  end%N.

(** A parser step reads [a] and leaves [rest], unless the fuel ran out. *)
Definition reads {A : Type} (p : JSON.parsed A) (a : A) (rest : string)
  : Prop :=
  p = JSON.Parsed a rest \/ p = JSON.Exhausted.

(** The text of an array element and the element read back from it. *)
Definition element_text (e : value) : string :=
  match JSON.stringify e with Some t => t | None => "null" end.
Definition element_back (e : value) : value :=
  match e with VUndef => VNull | _ => canon e end.

(** The text of a member that is written, and the step that reads it
    back. *)
Definition member_text (kv : string * value) : string :=
  (JSON.quote (fst kv) ++ ":" ++ element_text (snd kv))%string.
Definition member_back (acc : obj) (kv : string * value) : obj :=
  prop_set acc (fst kv) (canon (snd kv)).
Definition written (kv : string * value) : bool :=
  match snd kv with VUndef => false | _ => true end.

(** The text starts with a character that is not white space and closes
    neither an array nor an object. *)
Definition opens_value (s : string) : Prop :=
  exists c s', s = String c s'
               /\ JSON.is_ws c = false
               /\ Ascii.eqb c "]" = false
               /\ Ascii.eqb c "}" = false.

(** ** Rows that survive [load] *)

(** The text has no backslash in it. *)
Fixpoint backslash_free (s : string) : bool :=
  match s with
  | EmptyString => true
  | String c r => negb (Ascii.eqb c JSON.backslash) && backslash_free r
  end.

(** A document [persist] followed by [load] gives back as it is: its row
    has no backslash, JSON carries it exactly, and its [_id] is truthy. *)
Definition keeps_well (d : obj) : Prop :=
  backslash_free (row d) = true
  /\ canon (VObj d) = VObj d
  /\ truthy (field d "_id") = true.

(** The live documents of a table, in table order. *)
Definition live_docs (t : table) : list obj :=
  List.filter live (Object_values t).

(** ** objectHas of utils *)

(** [typeof v === 'object'] for a truthy [v]: an array or an object. *)
Definition is_container (v : value) : bool :=
  match v with
  | VArr _ | VObj _ => true
  | _ => false
  end.

(** The entries of an array from index [i] on. *)
Fixpoint indexed (i : nat) (l : list value) : list (string * value) :=
  match l with
  | [] => []
  | e :: l' => (number_to_string (Z.of_nat i), e) :: indexed (S i) l'
  end.

(** [Object.entries(v)]: the members of an object, the elements of an
    array under their indices; a primitive has none. *)
Definition Object_entries (v : value) : list (string * value) :=
  match v with
  | VObj o => o
  | VArr l => indexed 0 l
  | _ => []
  end.

(** The loop of [objectHas].  The stack is kept top first: [pop] takes its
    head, and [push(...entries)] leaves the last entry on top.  [None]
    stands for a loop that has not ended within [fuel] rounds. *)
Fixpoint objectHas_loop (validator : string -> value -> bool) (fuel : nat)
  (stack : list (string * value)) : option bool :=
  match fuel with
  | O => None
  | S fuel' =>
      match stack with
      | [] => Some false
      | (key, v) :: stack' =>
          if validator key v then Some true
          else if truthy v && is_container v
               then objectHas_loop validator fuel'
                      (rev (Object_entries v) ++ stack')
               else objectHas_loop validator fuel' stack'
      end
  end.

(** The number of entries below a value, at any depth. *)
Fixpoint weight (v : value) : nat :=
  match v with
  | VArr l => list_sum (map (fun e => S (weight e)) l)
  | VObj o => list_sum (map (fun kv => S (weight (snd kv))) o)
  | _ => 0
  end.

(** [objectHas(object, validator)], the loop given one round per entry and
    one to find the stack empty. *)
Definition objectHas (object : value) (validator : string -> value -> bool)
  : option bool :=
  if negb (truthy object) || negb (is_container object) then Some false
  else objectHas_loop validator (S (weight object))
         (rev (Object_entries object)).

(** [key], [v] is an entry of [object] or of a value nested in it. *)
Inductive nested (object : value) (key : string) (v : value) : Prop :=
| nested_here : In (key, v) (Object_entries object) -> nested object key v
| nested_below (k : string) (x : value) :
    In (k, x) (Object_entries object) -> nested x key v ->
    nested object key v.

(** The rounds a stack still needs: one per entry, at any depth. *)
Definition stack_weight (stack : list (string * value)) : nat :=
  list_sum (map (fun kv => S (weight (snd kv))) stack).

(** Some entry of the stack, or an entry nested in one, passes the
    validator. *)
Definition stack_has (validator : string -> value -> bool)
  (stack : list (string * value)) : Prop :=
  exists k x, In (k, x) stack
              /\ (validator k x = true
                  \/ exists key v, nested x key v /\ validator key v = true).

(** ** More sample instances *)

Definition two_rows : LeafDB :=
  Sample.on_disk [("a", Sample.doc_a_deleted); ("b", Sample.doc_b)].

(** ** Reads and writes that stay within the own properties of the table

    [this.data] is created as [{}] (and again by [drop]), so its prototype
    is [Object.prototype]: a read [this.data[k]] of a key that is not an own
    property gives the member of [Object.prototype] of that name when there
    is one, a function or, for [__proto__], the prototype itself.
    [insert], [findById], [updateById] and [deleteById] read the table this
    way with the identifier given by the caller.  The table of the model
    holds the own properties; the statements about an identifier the table
    does not hold are made for the names that follow excluded. *)

(** The member names of [Object.prototype]. *)
Definition Object_prototype : list string :=
  ["constructor"; "__defineGetter__"; "__defineSetter__"; "hasOwnProperty";
   "__lookupGetter__"; "__lookupSetter__"; "isPrototypeOf";
   "propertyIsEnumerable"; "toString"; "valueOf"; "__proto__";
   "toLocaleString"].

Definition inherited (k : string) : bool :=
  existsb (String.eqb k) Object_prototype.





(** ** Sample files and tables for the statements on [load] and [update] *)





(** The live documents [a] and [b] in memory, and the update
    [{ $add: { x: 1 } }]. *)
Definition two_live : LeafDB :=
  Sample.memory [("a", Sample.doc_a); ("b", Sample.doc_b)].

Definition add_one : obj := [("$add", VObj [("x", VNum 1)])].
(** * Properties *)

(** ** Own properties: reading after writing *)

Section PropFacts.
Context {A : Type}.
Implicit Types (o : list (string * A)) (k : string) (v : A).

Lemma prop_get_replace_eq o k v :
  prop_has o k = true -> prop_get (prop_replace o k v) k = Some v.
Proof.
  unfold prop_has. induction o as [|[k' v'] o IH]; simpl; [discriminate|].
  destruct (String.eqb_spec k k') as [->|Hne]; simpl.
  - now rewrite String.eqb_refl.
  - intros Hk. destruct (String.eqb_spec k k'); [contradiction|]. auto.
Qed.

Lemma prop_get_replace_ne o k k' v :
  k <> k' -> prop_get (prop_replace o k v) k' = prop_get o k'.
Proof.
  intros Hne. induction o as [|[k0 v0] o IH]; simpl; [reflexivity|].
  destruct (String.eqb_spec k k0) as [->|Hk]; simpl.
  - destruct (String.eqb_spec k' k0); [congruence | reflexivity].
  - now rewrite IH.
Qed.

Lemma prop_get_insert_index_eq o n k v :
  prop_get o k = None -> prop_get (prop_insert_index o n k v) k = Some v.
Proof.
  induction o as [|[k' v'] o IH]; simpl.
  - now rewrite String.eqb_refl.
  - destruct (String.eqb_spec k k') as [->|Hne]; [discriminate|].
    intros Hnone.
    destruct (array_index k') as [n'|]; [destruct (n' <? n)%N|]; simpl;
      rewrite ?String.eqb_refl; try reflexivity.
    destruct (String.eqb_spec k k'); [contradiction | auto].
Qed.

Lemma prop_get_insert_index_ne o n k k' v :
  k <> k' -> prop_get (prop_insert_index o n k v) k' = prop_get o k'.
Proof.
  intros Hne. induction o as [|[k0 v0] o IH]; simpl.
  - destruct (String.eqb_spec k' k); [congruence | reflexivity].
  - destruct (array_index k0) as [n'|]; [destruct (n' <? n)%N|]; simpl;
      try rewrite IH; try reflexivity;
      destruct (String.eqb_spec k' k); congruence.
Qed.

Lemma prop_get_app o o' k :
  prop_get (o ++ o') k =
  match prop_get o k with Some v => Some v | None => prop_get o' k end.
Proof.
  induction o as [|[k0 v0] o IH]; simpl; [reflexivity|].
  destruct (String.eqb k k0); auto.
Qed.

(** [o[k] = v; o[k]] reads [v]. *)
Lemma prop_get_set_eq o k v : prop_get (prop_set o k v) k = Some v.
Proof.
  unfold prop_set. destruct (prop_has o k) eqn:Hhas.
  - now apply prop_get_replace_eq.
  - assert (prop_get o k = None) as Hnone
      by (unfold prop_has in Hhas; destruct (prop_get o k); congruence).
    destruct (array_index k).
    + now apply prop_get_insert_index_eq.
    + rewrite prop_get_app, Hnone. simpl. now rewrite String.eqb_refl.
Qed.

(** [o[k] = v] leaves every other key as it was. *)
Lemma prop_get_set_ne o k k' v :
  k <> k' -> prop_get (prop_set o k v) k' = prop_get o k'.
Proof.
  intros Hne. unfold prop_set. destruct (prop_has o k).
  - now apply prop_get_replace_ne.
  - destruct (array_index k).
    + now apply prop_get_insert_index_ne.
    + rewrite prop_get_app. destruct (prop_get o k'); [reflexivity|].
      simpl. destruct (String.eqb_spec k' k); congruence.
Qed.

Lemma prop_get_set o k k' v :
  prop_get (prop_set o k v) k' =
  if String.eqb k k' then Some v else prop_get o k'.
Proof.
  destruct (String.eqb_spec k k') as [->|Hne].
  - apply prop_get_set_eq.
  - now apply prop_get_set_ne.
Qed.

Lemma prop_has_set o k v : prop_has (prop_set o k v) k = true.
Proof. unfold prop_has. now rewrite prop_get_set_eq. Qed.

Lemma prop_replace_replace o k v v' :
  prop_replace (prop_replace o k v) k v' = prop_replace o k v'.
Proof.
  induction o as [|[k0 v0] o IH]; simpl; [reflexivity|].
  destruct (String.eqb k k0) eqn:E; simpl; rewrite E; [reflexivity|].
  now rewrite IH.
Qed.

Lemma prop_replace_insert_index o n k v v' :
  prop_get o k = None ->
  prop_replace (prop_insert_index o n k v) k v' = prop_insert_index o n k v'.
Proof.
  induction o as [|[k0 v0] o IH]; simpl.
  - now rewrite String.eqb_refl.
  - destruct (String.eqb k k0) eqn:E; [discriminate|]. intros Hnone.
    destruct (array_index k0) as [n'|]; [destruct (n' <? n)%N|]; simpl;
      rewrite ?String.eqb_refl, ?E, ?IH; auto.
Qed.

Lemma prop_replace_app_new o k v v' :
  prop_get o k = None ->
  prop_replace (o ++ [(k, v)]) k v' = o ++ [(k, v')].
Proof.
  induction o as [|[k0 v0] o IH]; simpl.
  - now rewrite String.eqb_refl.
  - destruct (String.eqb k k0) eqn:E; [discriminate|]. intros Hnone.
    now rewrite IH.
Qed.

(** Writing a key twice leaves the later value where the first write put
    the key. *)
Lemma prop_set_set o k v v' :
  prop_set (prop_set o k v) k v' = prop_set o k v'.
Proof.
  unfold prop_set at 1. rewrite prop_has_set.
  unfold prop_set. destruct (prop_has o k) eqn:Hhas.
  - apply prop_replace_replace.
  - assert (prop_get o k = None) as Hnone
      by (unfold prop_has in Hhas; destruct (prop_get o k); congruence).
    destruct (array_index k).
    + now apply prop_replace_insert_index.
    + now apply prop_replace_app_new.
Qed.
End PropFacts.

Lemma set_data_id (db : LeafDB) : set_data db (data db) = db.
Proof. now destruct db. Qed.

Lemma field_set_eq (d : obj) (k : string) (v : value) :
  field (prop_set d k v) k = v.
Proof. unfold field, member. now rewrite prop_get_set_eq. Qed.

Lemma field_set_ne (d : obj) (k k' : string) (v : value) :
  k <> k' -> field (prop_set d k v) k' = field d k'.
Proof. intros Hne. unfold field, member. now rewrite prop_get_set_ne. Qed.


Lemma valid_key_str (k : string) : k <> "" -> valid_key (VStr k) = Some k.
Proof.
  intros Hne. simpl. destruct (String.eqb_spec k ""); [contradiction|].
  reflexivity.
Qed.
Lemma entries_forallb (P : string -> obj -> Prop) (p : string * obj -> bool)
  (t : table) :
  (forall k d, p (k, d) = true -> P k d) ->
  forallb p t = true -> entries P t.
Proof.
  intros Hp. induction t as [|[k0 d0] t IH]; intros Hall k d; simpl in *.
  - discriminate.
  - apply andb_prop in Hall as [H0 Hrest].
    destruct (String.eqb_spec k k0) as [->|Hne].
    + intros [= <-]. now apply Hp.
    + now apply IH.
Qed.

Lemma id_is_keyb_sound (t : table) : id_is_keyb t = true -> id_is_key t.
Proof.
  apply entries_forallb. intros k d. simpl.
  destruct (field d "_id"); try discriminate.
  now intros ->%String.eqb_eq.
Qed.


Lemma entries_set (P : string -> obj -> Prop) (t : table) (k : string)
  (d : obj) :
  entries P t -> P k d -> entries P (prop_set t k d).
Proof.
  intros Ht Hd k' d'. rewrite prop_get_set.
  destruct (String.eqb_spec k k') as [->|Hne].
  - now intros [= <-].
  - apply Ht.
Qed.

Lemma keeps_id_set (t : table) (k key : string) (d : obj) :
  keeps_id t k -> field d "_id" = VStr key -> keeps_id (prop_set t key d) k.
Proof.
  intros (d0 & Hget & Hid) Hd. unfold keeps_id. rewrite prop_get_set.
  destruct (String.eqb_spec key k) as [->|Hne]; eauto.
Qed.


(** ** Serialized values are single lines *)

Lemma one_line_app (a b : string) :
  one_line (a ++ b) = one_line a && one_line b.
Proof.
  induction a as [|c a IH]; simpl; [reflexivity|].
  now rewrite IH, andb_assoc.
Qed.

Lemma one_line_concat (sep : string) (l : list string) :
  one_line sep = true ->
  Forall (fun s => one_line s = true) l ->
  one_line (String.concat sep l) = true.
Proof.
  intros Hsep. induction 1 as [|s l Hs Hl IH]; simpl; [reflexivity|].
  destruct l as [|s' l]; [assumption|].
  now rewrite !one_line_app, Hs, Hsep, IH.
Qed.

Lemma one_line_digits (d : Decimal.uint) :
  one_line (NilEmpty.string_of_uint d) = true.
Proof. induction d; simpl; auto. Qed.

Lemma one_line_number (n : Z) : one_line (number_to_string n) = true.
Proof.
  unfold number_to_string, NilZero.string_of_int, NilZero.string_of_uint.
  destruct (Z.to_int n) as [d|d]; destruct d; simpl;
    auto using one_line_digits.
Qed.

Lemma one_line_escape_char (c : ascii) :
  one_line (JSON.escape_char c) = true.
Proof. destruct c as [[] [] [] [] [] [] [] []]; reflexivity. Qed.

Lemma one_line_escape (s : string) : one_line (JSON.escape s) = true.
Proof.
  induction s as [|c s IH]; simpl; [reflexivity|].
  now rewrite one_line_app, one_line_escape_char, IH.
Qed.

Lemma one_line_quote (s : string) : one_line (JSON.quote s) = true.
Proof.
  unfold JSON.quote. simpl. now rewrite one_line_app, one_line_escape.
Qed.

(** [JSON.stringify] never writes a line feed: inside a string literal it
    is escaped. *)
Lemma stringify_one_line (v : value) :
  forall s, JSON.stringify v = Some s -> one_line s = true.
Proof.
  induction v as [| | b | n | t | l IH | o IH] using value_nested_ind;
    simpl; intros s.
  - discriminate.
  - now intros [= <-].
  - destruct b; now intros [= <-].
  - intros [= <-]. apply one_line_number.
  - intros [= <-]. apply one_line_quote.
  - intros [= <-]. rewrite !one_line_app. simpl.
    rewrite andb_true_r. apply one_line_concat; [reflexivity|].
    induction IH as [|e l He _ IHl]; simpl; constructor; [|assumption].
    destruct (JSON.stringify e); [now apply He | reflexivity].
  - intros [= <-]. rewrite !one_line_app. simpl.
    rewrite andb_true_r. apply one_line_concat; [reflexivity|].
    induction IH as [|[k x] o Hx _ IHo]; simpl; [constructor|].
    simpl in Hx. destruct (JSON.stringify x) as [t|]; [|assumption].
    simpl. constructor; [|assumption].
    rewrite !one_line_app, one_line_quote. simpl. now apply Hx.
Qed.

Lemma stringify_row (d : obj) : JSON.stringify (VObj d) = Some (row d).
Proof. reflexivity. Qed.

Lemma one_line_row (d : obj) : one_line (row d) = true.
Proof. apply (stringify_one_line (VObj d)), stringify_row. Qed.

(** ** Splitting what was joined *)

Lemma split_lines_one_line (s : string) :
  one_line s = true -> split_lines s = [s].
Proof.
  induction s as [|c s IH]; simpl; [reflexivity|].
  intros [Hc Hs]%andb_prop. apply negb_true_iff in Hc.
  now rewrite Hc, IH.
Qed.

Lemma split_lines_cons (s rest : string) :
  one_line s = true ->
  split_lines (s ++ String LF rest) = s :: split_lines rest.
Proof.
  induction s as [|c s IH]; simpl.
  - reflexivity.
  - intros [Hc Hs]%andb_prop. apply negb_true_iff in Hc.
    now rewrite Hc, IH.
Qed.

(** Rows without line feeds, joined by line feeds, split back into the same
    rows. *)
Lemma split_lines_joined (r : string) (rows : list string) :
  Forall (fun s => one_line s = true) (r :: rows) ->
  split_lines (String.concat (String LF "") (r :: rows)) = r :: rows.
Proof.
  revert r. induction rows as [|r' rows IH]; intros r Hall.
  - apply split_lines_one_line. now inversion Hall.
  - inversion Hall as [|? ? Hr Hrest]; subst.
    change (String.concat (String LF "") (r :: r' :: rows))
      with (r ++ String LF (String.concat (String LF "") (r' :: rows)))%string.
    now rewrite split_lines_cons, IH.
Qed.

(** ** The parser does not run out of fuel *)

Lemma skip_ws_length (s : string) :
  String.length (JSON.skip_ws s) <= String.length s.
Proof.
  induction s as [|c s IH]; simpl; [lia|].
  destruct (JSON.is_ws c); simpl; lia.
Qed.

Lemma skip_ws_cons (s r : string) (c : ascii) :
  JSON.skip_ws s = String c r -> String.length r < String.length s.
Proof.
  intros Hskip. pose proof (skip_ws_length s) as Hle.
  rewrite Hskip in Hle. simpl in Hle. lia.
Qed.

Lemma strip_prefix_length (p s r : string) :
  JSON.strip_prefix p s = Some r ->
  String.length r + String.length p = String.length s.
Proof.
  revert s. induction p as [|a p IH]; intros [|b s]; simpl;
    try discriminate.
  - intros [= <-]. simpl. lia.
  - intros [= <-]. simpl. lia.
  - destruct (Ascii.eqb a b); [|discriminate].
    intros Hp%IH. simpl. lia.
Qed.

Lemma parse_literal_consumes (lit : string) (v : value) (s : string) :
  0 < String.length lit -> consumes s (JSON.parse_literal lit v s).
Proof.
  intros Hlit. unfold JSON.parse_literal.
  destruct (JSON.strip_prefix lit s) as [r|] eqn:E; simpl; [|exact I].
  apply strip_prefix_length in E. lia.
Qed.

Lemma take_digits_length (s : string) :
  forall acc, String.length (snd (JSON.take_digits s acc)) <= String.length s.
Proof.
  induction s as [|c s IH]; intros acc; simpl; [lia|].
  destruct (digit_of c); simpl; [|lia].
  specialize (IH (acc * 10 + n)%N). lia.
Qed.

Lemma parse_natural_consumes (s : string) :
  consumes s (JSON.parse_natural s).
Proof.
  unfold JSON.parse_natural. destruct s as [|c r]; simpl; [exact I|].
  destruct (digit_of c) as [d|]; [|exact I].
  assert (forall (p : N * string),
             String.length (snd p) <= String.length r ->
             consumes (String c r)
               (let '(n, r') := p in
                match r' with
                | String x _ =>
                    if Ascii.eqb x "." || Ascii.eqb x "e" || Ascii.eqb x "E"
                    then JSON.Malformed else JSON.Parsed n r'
                | EmptyString => JSON.Parsed n r'
                end)) as Hrest.
  { intros [n [|x r']]; simpl; intros Hle; [lia|].
    destruct (_ || _); simpl; [exact I | lia]. }
  destruct (d =? 0)%N.
  - apply (Hrest (0%N, r)). simpl. lia.
  - apply (Hrest (JSON.take_digits r d)), take_digits_length.
Qed.

Lemma parse_string_consumes (n : nat) :
  forall s, String.length s < n -> consumes s (JSON.parse_string s).
Proof.
  induction n as [|n IH]; intros s Hn; [lia|].
  assert (forall (x : ascii) (r : string),
             S (String.length r) < String.length s ->
             consumes s
               (match JSON.parse_string r with
                | JSON.Parsed t r2 => JSON.Parsed (String x t) r2
                | JSON.Malformed => JSON.Malformed
                | JSON.Exhausted => JSON.Exhausted
                end)) as Hescaped.
  { intros x r Hr. pose proof (IH r ltac:(lia)) as Hrec.
    destruct (JSON.parse_string r); simpl in *; [lia | exact I | exact Hrec]. }
  destruct s as [|c r]; simpl; [exact I|]. simpl in Hn.
  destruct (Ascii.eqb c JSON.dquote); [simpl; lia|].
  destruct (Ascii.eqb c JSON.backslash).
  - destruct r as [|e r1]; [exact I|]. simpl in Hn.
    repeat match goal with
           | |- consumes _ (if ?b then _ else _) => destruct b
           end;
      try (apply Hescaped; simpl; lia); try exact I.
    destruct r1 as [|h1 [|h2 [|h3 [|h4 r2]]]]; try exact I.
    destruct (JSON.unicode_escape h1 h2 h3 h4); [|exact I].
    apply Hescaped. simpl. lia.
  - destruct (N_of_ascii c <? 32)%N; [exact I|].
    pose proof (IH r ltac:(lia)) as Hrec.
    destruct (JSON.parse_string r); simpl in *; [lia | exact I | exact Hrec].
Qed.

Lemma parse_string_rest (s t r : string) :
  JSON.parse_string s = JSON.Parsed t r -> String.length r < String.length s.
Proof.
  intros Hp. pose proof (parse_string_consumes (S (String.length s)) s
                           ltac:(lia)) as Hc.
  now rewrite Hp in Hc.
Qed.

Lemma parse_string_ends (s : string) :
  JSON.parse_string s <> JSON.Exhausted.
Proof.
  intros Hp. pose proof (parse_string_consumes (S (String.length s)) s
                           ltac:(lia)) as Hc.
  now rewrite Hp in Hc.
Qed.

Lemma consumes_shorter {A : Type} (s s' : string) (p : JSON.parsed A) :
  String.length s' <= String.length s -> consumes s' p -> consumes s p.
Proof. destruct p; simpl; auto. lia. Qed.

(** With fuel above twice the length of the text, every step of the parser
    ends, and ends on a shorter text. *)
Lemma parse_value_consumes (fuel : nat) :
  (forall s,
      2 * String.length s < fuel -> consumes s (JSON.parse_value fuel s))
  /\ (forall s acc,
      2 * String.length s + 1 < fuel ->
      consumes s (JSON.parse_elements fuel s acc))
  /\ (forall s acc,
      2 * String.length s + 1 < fuel ->
      consumes s (JSON.parse_members fuel s acc)).
Proof.
  induction fuel as [|f (IHv & IHe & IHm)];
    [repeat split; intros; lia|].
  split; [|split].
  - intros s Hf. cbn [JSON.parse_value].
    destruct (JSON.skip_ws s) as [|c r] eqn:Hs; [exact I|].
    apply skip_ws_cons in Hs.
    destruct (Ascii.eqb c "{").
    { destruct (JSON.skip_ws r) as [|x r'] eqn:Hr; [exact I|].
      apply skip_ws_cons in Hr.
      destruct (Ascii.eqb x "}"); [simpl; lia|].
      apply (consumes_shorter s r); [lia|]. apply IHm. lia. }
    destruct (Ascii.eqb c "[").
    { destruct (JSON.skip_ws r) as [|x r'] eqn:Hr; [exact I|].
      apply skip_ws_cons in Hr.
      destruct (Ascii.eqb x "]"); [simpl; lia|].
      apply (consumes_shorter s r); [lia|]. apply IHe. lia. }
    destruct (Ascii.eqb c JSON.dquote).
    { pose proof (parse_string_ends r) as Hends.
      destruct (JSON.parse_string r) as [t r'| |] eqn:Hp; simpl;
        [|exact I|now apply Hends].
      apply parse_string_rest in Hp. lia. }
    assert (forall lit v,
               0 < String.length lit ->
               consumes s (JSON.parse_literal lit v (String c r))) as Hlit.
    { intros lit v Hlen. apply (consumes_shorter s (String c r));
        [simpl; lia|]. now apply parse_literal_consumes. }
    destruct (Ascii.eqb c "n"); [apply Hlit; simpl; lia|].
    destruct (Ascii.eqb c "t"); [apply Hlit; simpl; lia|].
    destruct (Ascii.eqb c "f"); [apply Hlit; simpl; lia|].
    destruct (Ascii.eqb c "-").
    { pose proof (parse_natural_consumes r) as Hn.
      destruct (JSON.parse_natural r); simpl in *; [lia | exact I | exact Hn]. }
    pose proof (parse_natural_consumes (String c r)) as Hn.
    destruct (JSON.parse_natural (String c r)); cbn [consumes] in *;
      [cbn [String.length] in Hn; lia | exact I | exact Hn].
  - intros s acc Hf. simpl.
    pose proof (IHv s ltac:(lia)) as Hv.
    destruct (JSON.parse_value f s) as [v r| |]; simpl in Hv;
      [|exact I|exact Hv].
    destruct (JSON.skip_ws r) as [|c r'] eqn:Hr; [exact I|].
    apply skip_ws_cons in Hr.
    destruct (Ascii.eqb c ",").
    { apply (consumes_shorter s r'); [lia|]. apply IHe. lia. }
    destruct (Ascii.eqb c "]"); simpl; [lia | exact I].
  - intros s acc Hf. simpl.
    destruct (JSON.skip_ws s) as [|q r] eqn:Hs; [exact I|].
    apply skip_ws_cons in Hs.
    destruct (Ascii.eqb q JSON.dquote); [|exact I].
    pose proof (parse_string_ends r) as Hends.
    destruct (JSON.parse_string r) as [k r1| |] eqn:Hp;
      [|exact I|now apply Hends].
    apply parse_string_rest in Hp.
    destruct (JSON.skip_ws r1) as [|x r2] eqn:Hr1; [exact I|].
    apply skip_ws_cons in Hr1.
    destruct (Ascii.eqb x ":"); [|exact I].
    pose proof (IHv r2 ltac:(lia)) as Hv.
    destruct (JSON.parse_value f r2) as [v r3| |]; simpl in Hv;
      [|exact I|exact Hv].
    destruct (JSON.skip_ws r3) as [|c r4] eqn:Hr3; [exact I|].
    apply skip_ws_cons in Hr3.
    destruct (Ascii.eqb c ",").
    { apply (consumes_shorter s r4); [lia|]. apply IHm. lia. }
    destruct (Ascii.eqb c "}"); simpl; [lia | exact I].
Qed.

(** [JSON.parse] returns a value or throws a [SyntaxError]: the fuel it
    gives the parser is always enough. *)
Lemma parse_total (s : string) :
  (exists v, JSON.parse s = Ok v) \/ JSON.parse s = Err SyntaxError.
Proof.
  unfold JSON.parse.
  pose proof (proj1 (parse_value_consumes (2 * String.length s + 2)) s
                ltac:(lia)) as Hc.
  destruct (JSON.parse_value _ s) as [v r| |]; simpl in Hc;
    [|now right|contradiction].
  destruct (JSON.skip_ws r); eauto.
Qed.
Section StoreFacts.
Context `{Validation} `{Modifiers}.
Variable getUid : nat -> string.

(** *** update and updateById re-stamp the key *)

Lemma update_one_stored (t t' : table) (key : string) (doc : obj)
  (update : value) (projection : option (list string)) (r : result value) :
  update_one t key doc update projection = (t', r) ->
  t' = t \/ exists stored,
      t' = prop_set t key stored /\ field stored "_id" = VStr key.
Proof.
  unfold update_one. destruct (new_doc doc update) as [newDoc|e].
  - intros [= <- _]. right. eexists. split; [reflexivity|].
    apply field_set_eq.
  - intros [= <- _]. now left.
Qed.

Lemma update_one_keeps (t t' : table) (key k : string) (doc : obj)
  (update : value) (projection : option (list string)) (r : result value) :
  update_one t key doc update projection = (t', r) ->
  keeps_id t k -> keeps_id t' k.
Proof.
  intros [->|(stored & -> & Hid)]%update_one_stored Hk; [assumption|].
  now apply keeps_id_set.
Qed.

Lemma updateById_loop_keeps (k : string) (update : value)
  (projection : option (list string)) (keys : list value) :
  forall t t' r,
    updateById_loop t keys update projection = (t', r) ->
    keeps_id t k -> keeps_id t' k.
Proof.
  induction keys as [|key keys IH]; simpl; intros t t' r.
  - now intros [= <- _].
  - destruct (valid_key key) as [k0|]; [|now intros [= <- _]].
    destruct (prop_get t k0) as [doc|]; [|apply IH].
    destruct (deleted doc); [apply IH|].
    destruct (update_one t k0 doc update projection) as [t1 [shown|e]] eqn:E1.
    + destruct (updateById_loop t1 keys update projection) as [t2 r2] eqn:E2.
      intros [= <- _] Hk. eapply IH; [exact E2|].
      eapply update_one_keeps; eauto.
    + intros [= <- _] Hk. eapply update_one_keeps; eauto.
Qed.

Lemma update_loop_keeps (k : string) (query update : value)
  (projection : option (list string)) (ks : list string) :
  forall t t' r,
    update_loop t ks query update projection = (t', r) ->
    keeps_id t k -> keeps_id t' k.
Proof.
  induction ks as [|k0 ks IH]; simpl; intros t t' r.
  - now intros [= <- _].
  - destruct (prop_get t k0) as [doc|]; [|now intros [= <- _]].
    destruct (if deleted doc then Ok false else isQueryMatch doc query)
      as [[|]|e]; [|apply IH|now intros [= <- _]].
    destruct (update_one t k0 doc update projection) as [t1 [shown|e]] eqn:E1.
    + destruct (update_loop t1 ks query update projection) as [t2 r2] eqn:E2.
      intros [= <- _] Hk. eapply IH; [exact E2|].
      eapply update_one_keeps; eauto.
    + intros [= <- _] Hk. eapply update_one_keeps; eauto.
Qed.

(** C4: a document stored under the identifier [k] with [_id] equal to
    [k] is, after any call of [updateById] or of [update] (a modifier set
    or a plain replacement, whatever [_id] the update argument carries,
    and however the call ends), still stored under [k] with [_id] equal
    to [k]. *)
Theorem update_keeps_id (db : LeafDB) (k : string) (d : obj) :
  prop_get (data db) k = Some d ->
  field d "_id" = VStr k ->
  (forall _id upd projection,
      keeps_id (data (snd (updateById db _id upd projection))) k)
  /\ (forall query upd projection,
      keeps_id (data (snd (update db query upd projection))) k).
Proof.
  intros Hget Hid.
  assert (keeps_id (data db) k) as Hk by (exists d; auto).
  split.
  - intros _id upd projection. unfold updateById.
    destruct (invalid_update _); [assumption|].
    destruct (updateById_loop _ _ _ _) as [t r] eqn:E.
    apply updateById_loop_keeps with (k := k) in E; [|assumption].
    now destruct r.
  - intros query upd projection. unfold update.
    destruct (negb (isObject _)); [assumption|].
    destruct (invalid_update _); [assumption|].
    destruct (update_loop _ _ _ _ _) as [t r] eqn:E.
    apply update_loop_keeps with (k := k) in E; [|assumption].
    now destruct r.
Qed.


(** *** deleteById on identifiers that are already tombstones *)

Lemma deleteById_loop_passes (t : table) (keys : list value) (n : Z) :
  Forall (passed_over t) keys -> deleteById_loop t keys n = (t, Ok n).
Proof.
  induction 1 as [|key keys (k & Hk & Hdoc) _ IH]; simpl; [reflexivity|].
  rewrite Hk. destruct (prop_get t k) as [d|]; [|exact IH].
  now rewrite Hdoc.
Qed.

(** C8: when the entry of the identifier [k] is already a tombstone,
    [deleteById(k)] (the identifier alone or in a one-element array)
    returns the count 0 and leaves the instance as it was. *)
Theorem deleteById_tombstone_again (db : LeafDB) (k : string) (d : obj) :
  k <> "" ->
  prop_get (data db) k = Some d ->
  deleted d = true ->
  deleteById db (VStr k) = (Returned (VNum 0), db)
  /\ deleteById db (VArr [VStr k]) = (Returned (VNum 0), db).
Proof.
  intros Hk Hget Hdel.
  assert (Forall (passed_over (data db)) [VStr k]) as Hall.
  { constructor; [|constructor]. exists k. split.
    - now apply valid_key_str.
    - now rewrite Hget. }
  unfold deleteById. simpl toArray.
  rewrite (deleteById_loop_passes _ _ 0 Hall), set_data_id. auto.
Qed.

(** *** persist writes the live rows *)

Lemma persist_payload_live (docs : list obj) :
  persist_payload docs =
  map (fun d => JSON.stringify (VObj d)) (List.filter live docs).
Proof.
  induction docs as [|d docs IH]; simpl; [reflexivity|].
  unfold live. destruct (deleted d); simpl; now rewrite IH.
Qed.

(** C7: on a file-backed instance [persist] returns normally and the
    backing file then holds exactly the rows of the documents of the table
    that are not tombstones, in table order, joined by line feeds.  The
    text does not depend on what the file held before, no other file
    changes, and each row is one line of the file. *)
Theorem persist_writes_live_rows (db : LeafDB) (fs : files) (f : string) :
  file db = Some f ->
  let docs := List.filter live (Object_values (data db)) in
  let text := String.concat (String LF "") (map row docs) in
  fst (persist db fs) = Ok tt
  /\ snd (persist db fs) !! f = Some text
  /\ (forall g, g <> f -> snd (persist db fs) !! g = fs !! g)
  /\ Forall (fun d => deleted d = false) docs
  /\ (docs <> [] -> split_lines text = map row docs).
Proof.
  intros Hf docs text. unfold persist, persist_table. rewrite Hf. simpl.
  rewrite persist_payload_live. unfold join_lines. rewrite map_map.
  fold docs. change (map _ docs) with (map row docs). fold text.
  repeat split.
  - apply lookup_insert_eq.
  - intros g Hg. now apply lookup_insert_ne.
  - apply List.Forall_forall. intros d [_ Hlive]%filter_In.
    unfold live in Hlive. now destruct (deleted d).
  - intros Hdocs. unfold text.
    assert (Forall (fun s => one_line s = true) (map row docs)) as Hrows.
    { apply List.Forall_forall. intros s (d & <- & _)%in_map_iff.
      apply one_line_row. }
    destruct docs as [|d docs']; [contradiction|].
    now apply split_lines_joined.
Qed.

(** *** insert with one identifier twice in the batch *)

Lemma prop_set_length_new {A : Type} (o : list (string * A)) (k : string)
  (v : A) :
  prop_has o k = false -> length (prop_set o k v) = S (length o).
Proof.
  intros Hhas. unfold prop_set. rewrite Hhas.
  destruct (array_index k) as [n|].
  - clear Hhas. induction o as [|[k0 v0] o IH]; simpl; [reflexivity|].
    destruct (array_index k0) as [n'|]; [destruct (n' <? n)%N|]; simpl;
      now rewrite ?IH.
  - rewrite length_app. simpl. lia.
Qed.

(** C10: a batch of two valid documents that carry the same identifier
    [k], not yet in the table and no member name of [Object.prototype], is
    not rejected; afterwards the table has one entry more, the entry of
    [k], and it holds the later document. *)
Theorem insert_same_id_twice (db : LeafDB) (fs : files) (seed : nat)
  (d1 d2 : obj) (k : string) :
  isInvalidDoc (VObj d1) = false ->
  isInvalidDoc (VObj d2) = false ->
  field d1 "_id" = VStr k ->
  field d2 "_id" = VStr k ->
  k <> "" ->
  prop_has (data db) k = false ->
  inherited k = false ->
  insert getUid db fs seed (VArr [VObj d1; VObj d2]) false
  = (Resolved VUndef, set_data db (prop_set (data db) k d2), fs, seed)
  /\ prop_get (prop_set (data db) k d2) k = Some d2
  /\ length (prop_set (data db) k d2) = S (length (data db)).
Proof.
  intros Hv1 Hv2 Hid1 Hid2 Hk Hfree _.
  assert (truthy (VStr k) = true) as Htruthy.
  { simpl. destruct (String.eqb_spec k ""); [contradiction | reflexivity]. }
  split; [|split].
  - unfold insert. simpl.
    rewrite Hv1, Hv2, Hid1, Hid2, Htruthy. simpl.
    rewrite !Hid1, !Hid2. simpl. rewrite Hfree. simpl.
    now rewrite Hid1, Hid2, prop_set_set.
  - apply prop_get_set_eq.
  - now apply prop_set_length_new.
Qed.

(** *** Rejections that leave the table alone *)

(** A rejected [insert] has changed neither the table nor the file: its
    checks run in a loop of their own, before the writing loop. *)
Lemma insert_rejected_unchanged (db : LeafDB) (fs : files) (seed : nat)
  (newDocs : value) (persist_opt : bool) :
  match insert getUid db fs seed newDocs persist_opt with
  | (Rejected _, db', fs', _) => db' = db /\ fs' = fs
  | _ => True
  end.
Proof.
  unfold insert.
  destruct newDocs; auto;
    destruct (insert_check getUid (data db) _ seed) as [[inserted|e] seed'];
    auto;
    destruct persist_opt; auto;
    unfold persist, persist_table; simpl; destruct (file db); exact I.
Qed.

(** An update argument that fails the checks is rejected before either
    loop starts. *)
Lemma invalid_update_unchanged (db : LeafDB) (upd : value)
  (projection : option (list string)) :
  invalid_update (or_default upd (VObj [])) = true ->
  (forall _id,
      updateById db _id upd projection = (Rejected InvalidUpdate, db))
  /\ (forall query,
      isObject (or_default query (VObj [])) = true ->
      update db query upd projection = (Rejected InvalidUpdate, db)).
Proof.
  intros Hbad. split.
  - intros _id. unfold updateById. now rewrite Hbad.
  - intros query Hq. unfold update. now rewrite Hq, Hbad.
Qed.

(** [findById] is rejected as soon as one listed identifier is malformed. *)
Lemma findById_malformed_rejected (db : LeafDB) (_id : value)
  (projection : option (list string)) :
  Exists (fun key => valid_key key = None) (toArray _id) ->
  exists e, findById db _id projection = Rejected e.
Proof.
  unfold findById. generalize (toArray _id) as keys.
  induction 1 as [key keys Hbad | key keys _ IH]; simpl.
  - rewrite Hbad. eauto.
  - destruct (valid_key key) as [k|]; [|eauto].
    unfold bind.
    destruct (objectProject _ projection) as [doc|e]; [|eauto].
    destruct (findById_loop _ keys projection) as [payload|e]; [|eauto].
    destruct IH as [e He]. discriminate He.
Qed.

(** *** Rejections after a write *)

(** [deleteById] checks an identifier only when the loop reaches it: a live
    document listed before a malformed identifier is tombstoned, and the
    call is then rejected. *)
Lemma deleteById_rejected_after_tombstone (db : LeafDB) (k : string)
  (d : obj) (bad : value) :
  k <> "" ->
  prop_get (data db) k = Some d ->
  deleted d = false ->
  valid_key bad = None ->
  deleteById db (VArr [VStr k; bad])
  = (Rejected InvalidId, set_data db (prop_set (data db) k (tombstone d))).
Proof.
  intros Hk Hget Hlive Hbad. unfold deleteById. simpl toArray.
  cbn [deleteById_loop]. rewrite (valid_key_str k Hk), Hget, Hlive, Hbad.
  reflexivity.
Qed.

(** [updateById] likewise: a live document listed before a malformed
    identifier is rewritten, and the call is then rejected. *)
Lemma updateById_rejected_after_write (db : LeafDB) (k : string) (d : obj)
  (bad upd : value) (projection : option (list string)) (newDoc : obj)
  (shown : value) :
  k <> "" ->
  prop_get (data db) k = Some d ->
  deleted d = false ->
  valid_key bad = None ->
  invalid_update (or_default upd (VObj [])) = false ->
  new_doc d (or_default upd (VObj [])) = Ok newDoc ->
  objectProject (VObj (prop_set newDoc "_id" (VStr k))) projection
  = Ok shown ->
  updateById db (VArr [VStr k; bad]) upd projection
  = (Rejected InvalidId,
     set_data db
       (prop_set (data db) k (prop_set newDoc "_id" (VStr k)))).
Proof.
  intros Hk Hget Hlive Hbad Hupd Hnew Hshown. unfold updateById.
  rewrite Hupd. simpl toArray. cbn [updateById_loop].
  rewrite (valid_key_str k Hk), Hget, Hlive. unfold update_one.
  rewrite Hnew, Hshown, Hbad. reflexivity.
Qed.

(** *** What the finders return *)

(** With the empty query and a projection that succeeds on every stored
    document, [find] resolves with the projection of every stored document:
    this branch never reads [$deleted]. *)
Lemma find_empty_query_all (db : LeafDB) (projection : option (list string))
  (shown : obj -> value) :
  (forall d, objectProject (VObj d) projection = Ok (shown d)) ->
  find db (VObj []) projection
  = Resolved (VArr (map shown (Object_values (data db)))).
Proof.
  intros Hproj. unfold find. simpl.
  assert (forall docs,
             mapM (fun doc => objectProject (VObj doc) projection) docs
             = Ok (map shown docs)) as Hall.
  { induction docs as [|d docs IH]; simpl; [reflexivity|].
    now rewrite Hproj, IH. }
  now rewrite Hall.
Qed.


(** *** What every operation keeps true of the entries *)


Section Entries.
Variable P : string -> obj -> Prop.

(** [P] holds of a document stamped with its key, and survives
    tombstoning. *)
Hypothesis P_stamped : forall k d, field d "_id" = VStr k -> P k d.
Hypothesis P_tombstone : forall k d, P k d -> P k (tombstone d).

Lemma update_one_entries (t t' : table) (key : string) (doc : obj)
  (upd : value) (projection : option (list string)) (r : result value) :
  update_one t key doc upd projection = (t', r) ->
  entries P t -> entries P t'.
Proof.
  intros [->|(stored & -> & Hid)]%update_one_stored Ht; [assumption|].
  apply entries_set; auto.
Qed.

Lemma updateById_loop_entries (upd : value)
  (projection : option (list string)) (keys : list value) :
  forall t t' r,
    updateById_loop t keys upd projection = (t', r) ->
    entries P t -> entries P t'.
Proof.
  induction keys as [|key keys IH]; simpl; intros t t' r.
  - now intros [= <- _].
  - destruct (valid_key key) as [k0|]; [|now intros [= <- _]].
    destruct (prop_get t k0) as [doc|]; [|apply IH].
    destruct (deleted doc); [apply IH|].
    destruct (update_one t k0 doc upd projection) as [t1 [shown|e]] eqn:E1.
    + destruct (updateById_loop t1 keys upd projection) as [t2 r2] eqn:E2.
      intros [= <- _] Ht. eapply IH; [exact E2|].
      eapply update_one_entries; eauto.
    + intros [= <- _] Ht. eapply update_one_entries; eauto.
Qed.

Lemma update_loop_entries (query upd : value)
  (projection : option (list string)) (ks : list string) :
  forall t t' r,
    update_loop t ks query upd projection = (t', r) ->
    entries P t -> entries P t'.
Proof.
  induction ks as [|k0 ks IH]; simpl; intros t t' r.
  - now intros [= <- _].
  - destruct (prop_get t k0) as [doc|]; [|now intros [= <- _]].
    destruct (if deleted doc then Ok false else isQueryMatch doc query)
      as [[|]|e]; [|apply IH|now intros [= <- _]].
    destruct (update_one t k0 doc upd projection) as [t1 [shown|e]] eqn:E1.
    + destruct (update_loop t1 ks query upd projection) as [t2 r2] eqn:E2.
      intros [= <- _] Ht. eapply IH; [exact E2|].
      eapply update_one_entries; eauto.
    + intros [= <- _] Ht. eapply update_one_entries; eauto.
Qed.

Lemma deleteById_loop_entries (keys : list value) :
  forall t n t' r,
    deleteById_loop t keys n = (t', r) -> entries P t -> entries P t'.
Proof.
  induction keys as [|key keys IH]; simpl; intros t n t' r.
  - now intros [= <- _].
  - destruct (valid_key key) as [k0|]; [|now intros [= <- _]].
    destruct (prop_get t k0) as [doc|] eqn:Hget; [|apply IH].
    destruct (deleted doc); [apply IH|].
    intros Hloop Ht. eapply IH; [exact Hloop|].
    apply entries_set; auto.
Qed.

Lemma delete_loop_entries (query : value) (ks : list string) :
  forall t n t' r,
    delete_loop t ks query n = (t', r) -> entries P t -> entries P t'.
Proof.
  induction ks as [|k0 ks IH]; simpl; intros t n t' r.
  - now intros [= <- _].
  - destruct (prop_get t k0) as [doc|] eqn:Hget; [|now intros [= <- _]].
    destruct (if deleted doc then Ok false else isQueryMatch doc query)
      as [[|]|e]; [|apply IH|now intros [= <- _]].
    intros Hloop Ht. eapply IH; [exact Hloop|].
    apply entries_set; auto.
Qed.

(** [updateById], [update], [deleteById], [delete] and [drop] keep [P]
    true of every entry. *)
Lemma rewriting_operations_keep (db : LeafDB) :
  entries P (data db) ->
  (forall _id upd projection,
      entries P (data (snd (updateById db _id upd projection))))
  /\ (forall query upd projection,
      entries P (data (snd (update db query upd projection))))
  /\ (forall _id, entries P (data (snd (deleteById db _id))))
  /\ (forall query, entries P (data (snd (delete db query))))
  /\ (forall fs, entries P (data (snd (fst (drop db fs))))).
Proof.
  intros Ht. repeat split.
  - intros _id upd projection. unfold updateById.
    destruct (invalid_update _); [assumption|].
    destruct (updateById_loop _ _ _ _) as [t r] eqn:E.
    apply updateById_loop_entries in E; [|assumption]. now destruct r.
  - intros query upd projection. unfold update.
    destruct (negb (isObject _)); [assumption|].
    destruct (invalid_update _); [assumption|].
    destruct (update_loop _ _ _ _ _) as [t r] eqn:E.
    apply update_loop_entries in E; [|assumption]. now destruct r.
  - intros _id. unfold deleteById.
    destruct (deleteById_loop _ _ _) as [t r] eqn:E.
    apply deleteById_loop_entries in E; [|assumption]. now destruct r.
  - intros query. unfold delete.
    destruct (negb (isObject _)); [assumption|].
    destruct (delete_loop _ _ _ _) as [t r] eqn:E.
    apply delete_loop_entries in E; [|assumption]. now destruct r.
  - intros fs. unfold drop, persist, persist_table. simpl.
    assert (entries P []) by (intros k d; discriminate).
    destruct (file db); simpl; assumption.
Qed.

(** [P] holds of a document under the key its [_id] coerces to. *)
Hypothesis P_named : forall d, P (toPropertyKey (field d "_id")) d.




End Entries.

Lemma field_tombstone_id (d : obj) : field (tombstone d) "_id" = field d "_id".
Proof. unfold tombstone. now apply field_set_ne. Qed.

(** [updateById], [update], [deleteById], [delete] and [drop] keep every
    [_id] equal to its key. *)
Lemma rewriting_operations_keep_id_is_key (db : LeafDB) :
  id_is_key (data db) ->
  (forall _id upd projection,
      id_is_key (data (snd (updateById db _id upd projection))))
  /\ (forall query upd projection,
      id_is_key (data (snd (update db query upd projection))))
  /\ (forall _id, id_is_key (data (snd (deleteById db _id))))
  /\ (forall query, id_is_key (data (snd (delete db query))))
  /\ (forall fs, id_is_key (data (snd (fst (drop db fs))))).
Proof.
  apply rewriting_operations_keep.
  - auto.
  - intros k d. now rewrite field_tombstone_id.
Qed.


End StoreFacts.

(** ** The operations on the sample instances *)

Section Runs.
Import Sample.
Local Existing Instance SpecModel.validation.
Local Existing Instance SpecModel.modifiers.

Lemma mapM_ok {A B : Type} (f : A -> B) (l : list A) :
  mapM (fun a => Ok (f a)) l = Ok (map f l).
Proof. induction l as [|a l IH]; simpl; [|rewrite IH]; reflexivity. Qed.

(** C1: what [find] does with the empty query.  Without a projection it
    resolves with every stored document, tombstones included: on the
    table that holds the tombstone of [a] and the live [b] it returns
    both. *)
Theorem find_all_returns_tombstones :
  (forall db,
      find db (VObj []) None
      = Resolved (VArr (map VObj (Object_values (data db)))))
  /\ deleted doc_a_deleted = true
  /\ find tombstone_and_live (VObj []) None
     = Resolved (VArr [VObj doc_a_deleted; VObj doc_b]).
Proof.
  split; [|split; reflexivity].
  intros db. unfold find. simpl.
  now rewrite (mapM_ok VObj).
Qed.

(** C2: what [updateById] and [deleteById] do when a later identifier of
    the list is malformed.  The call is rejected, but the documents of the
    identifiers before it have already been replaced or tombstoned. *)
Theorem byId_rejection_after_mutation :
  updateById one_live (VArr [VStr "a"; VStr ""]) (VObj [("x", VNum 2)]) None
  = (Rejected InvalidId, memory [("a", [("x", VNum 2); ("_id", VStr "a")])])
  /\ deleteById one_live (VArr [VStr "a"; VNum 7])
     = (Rejected InvalidId, one_tombstone).
Proof. split; reflexivity. Qed.

(** C3: what [persist] followed by [load] on a fresh instance does for a
    document with a backslash in a string.  The row is written as
    [{"_id":"a","path":"C:\\dir"}]; [load] doubles its first backslash
    before parsing, the parser refuses the text, the line is reported as
    corrupted and the table stays empty. *)
Theorem persist_load_loses_backslash :
  let fs := snd (persist (on_disk [("a", doc_path)]) ∅) in
  fs !! db_file = Some (row doc_path)
  /\ JSON.parse (row doc_path) = Ok (VObj doc_path)
  /\ JSON.parse (replace_first_backslash (row doc_path)) = Err SyntaxError
  /\ load fresh fs = (Ok [row doc_path], fresh, fs).
Proof. vm_compute. repeat split. Qed.

(** C5: what [insert] resolves with.  Every successful call resolves with
    [undefined], never with the documents it inserted. *)
Theorem insert_resolves_undefined :
  (forall db fs seed newDocs persist_opt,
      match fst (fst (fst (insert getUid db fs seed newDocs persist_opt)))
      with
      | Resolved v => v = VUndef
      | _ => True
      end)
  /\ insert getUid empty ∅ 0%nat (VArr [VObj doc_a; VObj doc_b]) false
     = (Resolved VUndef, memory [("a", doc_a); ("b", doc_b)], ∅, 0%nat).
Proof.
  split; [|reflexivity].
  intros db fs seed newDocs persist_opt. unfold insert.
  destruct newDocs; try exact I;
    destruct (insert_check getUid (data db) _ seed) as [[inserted|e] seed'];
    try exact I;
    destruct persist_opt; try reflexivity;
    unfold persist, persist_table; simpl; destruct (file db); simpl; auto.
Qed.

(** C6: what [findById] does with a tombstone under a projection.  The
    [$deleted] test reads the projected copy, which no longer carries the
    marker, so the tombstone of [a] is returned. *)
Theorem findById_projection_shows_tombstone :
  deleted doc_a_deleted = true
  /\ findById one_tombstone (VStr "a") (Some ["_id"])
     = Resolved (VArr [VObj [("_id", VStr "a")]])
  /\ findById one_tombstone (VStr "a") None = Resolved (VArr []).
Proof. repeat split. Qed.


(** *** Instances of the general statements *)

Lemma update_keeps_id_witness :
  (prop_get (data one_live) "a" = Some doc_a /\ field doc_a "_id" = VStr "a")
  /\ (forall _id upd projection,
         keeps_id (data (snd (updateById one_live _id upd projection))) "a")
  /\ (forall query upd projection,
         keeps_id (data (snd (update one_live query upd projection))) "a").
Proof.
  split; [split; reflexivity|].
  apply (update_keeps_id one_live "a" doc_a); reflexivity.
Defined.

Lemma deleteById_tombstone_again_witness :
  ("a" <> "" /\ prop_get (data one_tombstone) "a" = Some doc_a_deleted
   /\ deleted doc_a_deleted = true)
  /\ deleteById one_tombstone (VStr "a") = (Returned (VNum 0), one_tombstone)
  /\ deleteById one_tombstone (VArr [VStr "a"])
     = (Returned (VNum 0), one_tombstone).
Proof.
  split; [repeat split; discriminate|].
  apply (deleteById_tombstone_again one_tombstone "a" doc_a_deleted);
    [discriminate | reflexivity | reflexivity].
Defined.

Lemma persist_writes_live_rows_witness :
  file (on_disk [("a", doc_a_deleted); ("b", doc_b)]) = Some db_file
  /\ snd (persist (on_disk [("a", doc_a_deleted); ("b", doc_b)]) ∅)
     !! db_file
     = Some (row doc_b).
Proof.
  split; [reflexivity|].
  apply (persist_writes_live_rows
           (on_disk [("a", doc_a_deleted); ("b", doc_b)]) ∅ db_file).
  reflexivity.
Defined.

Lemma insert_same_id_twice_witness :
  (isInvalidDoc (VObj doc_a) = false /\ isInvalidDoc (VObj doc_a') = false
   /\ field doc_a "_id" = VStr "a" /\ field doc_a' "_id" = VStr "a"
   /\ "a" <> "" /\ prop_has (data empty) "a" = false
   /\ inherited "a" = false)
  /\ insert getUid empty ∅ 0%nat (VArr [VObj doc_a; VObj doc_a']) false
     = (Resolved VUndef, memory [("a", doc_a')], ∅, 0%nat).
Proof.
  split; [repeat split; discriminate|].
  apply (insert_same_id_twice getUid empty ∅ 0%nat doc_a doc_a' "a");
    try reflexivity; discriminate.
Defined.


End Runs.

(** * Further properties of the store *)

Section StoreMore.
Context `{Validation} `{Modifiers}.
Variable getUid : nat -> string.

(** ** Keys *)

Lemma prop_replace_keys {A : Type} (o : list (string * A)) (k : string)
  (v : A) :
  Object_keys (prop_replace o k v) = Object_keys o.
Proof.
  unfold Object_keys. induction o as [|[k0 v0] o IH]; simpl; [reflexivity|].
  destruct (String.eqb k k0); simpl; [reflexivity|]. now rewrite IH.
Qed.

(** Writing a key that is already there changes neither the keys nor their
    order. *)
Lemma prop_set_keys_present {A : Type} (o : list (string * A)) (k : string)
  (v : A) :
  prop_has o k = true -> Object_keys (prop_set o k v) = Object_keys o.
Proof.
  intros Hhas. unfold prop_set. rewrite Hhas. apply prop_replace_keys.
Qed.

Lemma prop_has_get {A : Type} (o : list (string * A)) (k : string) (v : A) :
  prop_get o k = Some v -> prop_has o k = true.
Proof. unfold prop_has. now intros ->. Qed.





Lemma delete_loop_keys (query : value) (ks : list string) :
  forall t n t' r,
    delete_loop t ks query n = (t', r) -> Object_keys t' = Object_keys t.
Proof.
  induction ks as [|k0 ks IH]; simpl; intros t n t' r.
  - now intros [= <- _].
  - destruct (prop_get t k0) as [doc|] eqn:Hget; [|now intros [= <- _]].
    destruct (if deleted doc then Ok false else isQueryMatch doc query)
      as [[|]|e]; [|apply IH|now intros [= <- _]].
    intros Hloop%IH. rewrite Hloop.
    eapply prop_set_keys_present, prop_has_get, Hget.
Qed.


(** ** insert *)

(** Every document that passes the checking loop goes under a key the
    table does not have. *)
Lemma insert_check_fresh (t : table) (a : list value) :
  forall seed inserted seed',
    insert_check getUid t a seed = (Ok inserted, seed') ->
    Forall (fun d => prop_has t (toPropertyKey (field d "_id")) = false)
      inserted.
Proof.
  induction a as [|newDoc a IH]; simpl; intros seed inserted seed'.
  - intros [= <- _]. constructor.
  - destruct (negb (isObject newDoc)); [discriminate|].
    destruct (isInvalidDoc newDoc); [discriminate|].
    destruct (if truthy (field (spread newDoc) "_id")
              then (spread newDoc, seed)
              else (prop_set (spread newDoc) "_id" (VStr (getUid seed)),
                    S seed)) as [d1 seed1].
    destruct (prop_has t (toPropertyKey (field d1 "_id"))) eqn:Hfree;
      [discriminate|].
    destruct (insert_check getUid t a seed1) as [[rest|e] seed2] eqn:Hrest;
      simpl; [|discriminate].
    intros [= <- _]. constructor; [assumption|]. eapply IH, Hrest.
Qed.

Lemma insert_all_keeps (inserted : list obj) (k : string) (d : obj) :
  forall t,
    prop_get t k = Some d ->
    Forall (fun x => toPropertyKey (field x "_id") <> k) inserted ->
    prop_get (insert_all t inserted) k = Some d.
Proof.
  induction inserted as [|x inserted IH]; simpl; intros t Hget Hall.
  - assumption.
  - inversion Hall as [|? ? Hx Hrest]; subst.
    apply IH; [|assumption]. now rewrite prop_get_set_ne.
Qed.

(** X2: [insert] never overwrites: every entry the table had, live or
    tombstone, is still there unchanged after the call, however it ends. *)
Theorem insert_keeps_entries (db : LeafDB) (fs : files) (seed : nat)
  (newDocs : value) (persist_opt : bool) (k : string) (d : obj) :
  prop_get (data db) k = Some d ->
  prop_get
    (data (snd (fst (fst (insert getUid db fs seed newDocs persist_opt)))))
    k = Some d.
Proof.
  intros Hget.
  assert (forall a,
             prop_get
               (data (snd (fst (fst
                  match insert_check getUid (data db) a seed with
                  | (Ok inserted, seed') =>
                      let db' :=
                        set_data db (insert_all (data db) inserted) in
                      if persist_opt
                      then match persist db' fs with
                           | (Ok _, fs') => (Resolved VUndef, db', fs', seed')
                           | (Err e, fs') => (Thrown e, db', fs', seed')
                           end
                      else (Resolved VUndef, db', fs, seed')
                  | (Err e, seed') => (Rejected e, db, fs, seed')
                  end)))) k = Some d) as Hrun.
  { intros a.
    destruct (insert_check getUid (data db) a seed) as [[inserted|e] seed']
      eqn:Hcheck; [|assumption].
    assert (prop_get (insert_all (data db) inserted) k = Some d) as Hkept.
    { apply insert_all_keeps; [assumption|].
      apply insert_check_fresh in Hcheck.
      eapply List.Forall_impl; [|exact Hcheck].
      intros x Hfree Heq. simpl in Hfree. rewrite Heq in Hfree.
      unfold prop_has in Hfree.
      now rewrite Hget in Hfree. }
    destruct persist_opt; [|assumption].
    unfold persist, persist_table. simpl. now destruct (file db). }
  unfold insert. destruct newDocs; try assumption; apply Hrun.
Qed.

(** X3: an identifier stays taken while its entry is in the table, even as
    a tombstone: [insert] of one valid document whose [_id] names a key of
    the table is rejected, and nothing changes. *)
Theorem insert_taken_id_rejected (db : LeafDB) (fs : files) (seed : nat)
  (d d0 : obj) (k : string) (persist_opt : bool) :
  isInvalidDoc (VObj d) = false ->
  field d "_id" = VStr k ->
  k <> "" ->
  prop_get (data db) k = Some d0 ->
  insert getUid db fs seed (VObj d) persist_opt
  = (Rejected (IdExists k), db, fs, seed).
Proof.
  intros Hvalid Hid Hk Hget. unfold insert. simpl.
  rewrite Hvalid, Hid. simpl.
  destruct (String.eqb_spec k ""); [contradiction|]. simpl.
  rewrite Hid. simpl. now rewrite (prop_has_get _ _ _ Hget).
Qed.



End StoreMore.

Section StoreMore2.
Context `{Validation} `{Modifiers}.

(** ** Updates *)

Lemma truthy_id_invalid (upd : value) :
  truthy (member upd "_id") = true ->
  invalid_update (or_default upd (VObj [])) = true.
Proof.
  intros Hid. unfold invalid_update.
  destruct upd; simpl in *; try discriminate.
  now rewrite Hid.
Qed.

(** X6: an update argument that carries a truthy [_id] is never applied:
    [updateById] and [update] reject the call before their loops start
    and leave the instance as it was. *)
Theorem update_with_id_rejected (db : LeafDB) (upd : value) :
  truthy (member upd "_id") = true ->
  (forall _id projection,
      updateById db _id upd projection = (Rejected InvalidUpdate, db))
  /\ (forall query projection,
      snd (update db query upd projection) = db
      /\ exists e, fst (update db query upd projection) = Rejected e).
Proof.
  intros Hid%truthy_id_invalid. split.
  - intros _id projection. unfold updateById. now rewrite Hid.
  - intros query projection. unfold update.
    destruct (negb (isObject _)); [simpl; eauto|].
    rewrite Hid. simpl. eauto.
Qed.



(** X8: a plain update replaces the document, it does not merge into it.
    After [updateById] of a live document with an update that has no
    modifiers, the stored document is the update with [_id] set to the
    key: every other field reads as it does in the update, so a field the
    update lacks is gone. *)
Theorem updateById_replaces (db : LeafDB) (k : string) (d u : obj)
  (projection : option (list string)) :
  k <> "" ->
  prop_get (data db) k = Some d ->
  deleted d = false ->
  invalid_update (VObj u) = false ->
  hasModifiers (VObj u) = false ->
  let db' := snd (updateById db (VStr k) (VObj u) projection) in
  exists stored,
    prop_get (data db') k = Some stored
    /\ field stored "_id" = VStr k
    /\ forall f, f <> "_id" -> field stored f = field u f.
Proof.
  intros Hk Hget Hlive Hupd Hmods. unfold updateById. simpl or_default.
  rewrite Hupd. simpl toArray. cbn [updateById_loop].
  rewrite (valid_key_str k Hk), Hget, Hlive.
  unfold update_one, new_doc. rewrite Hmods. simpl spread.
  exists (prop_set u "_id" (VStr k)).
  assert (prop_get (prop_set (data db) k (prop_set u "_id" (VStr k))) k
          = Some (prop_set u "_id" (VStr k))) as Hstored
    by apply prop_get_set_eq.
  split; [|split].
  - now destruct (objectProject _ projection).
  - apply field_set_eq.
  - intros f Hf. now apply field_set_ne.
Qed.

(** ** find with a query *)

Lemma find_loop_filter (query : value) (projection : option (list string))
  (m : obj -> bool) (shown : obj -> value) (docs : list obj) :
  (forall d, isQueryMatch d query = Ok (m d)) ->
  (forall d, objectProject (VObj d) projection = Ok (shown d)) ->
  find_loop docs query projection
  = Ok (map shown (List.filter (fun d => live d && m d) docs)).
Proof.
  intros Hm Hp. induction docs as [|d docs IH]; simpl; [reflexivity|].
  unfold live. destruct (deleted d); simpl.
  - exact IH.
  - rewrite Hm. simpl. destruct (m d); simpl; [|exact IH].
    now rewrite Hp, IH.
Qed.

(** X9: with a query that is an object with at least one key, [find]
    resolves with the projections of exactly the stored documents that are
    not tombstones and match the query, in table order (the matcher and the
    projection not throwing). *)
Theorem find_query_live_matches (db : LeafDB) (q : obj)
  (projection : option (list string)) (m : obj -> bool)
  (shown : obj -> value) :
  q <> [] ->
  (forall d, isQueryMatch d (VObj q) = Ok (m d)) ->
  (forall d, objectProject (VObj d) projection = Ok (shown d)) ->
  find db (VObj q) projection
  = Resolved
      (VArr (map shown
               (List.filter (fun d => live d && m d)
                  (Object_values (data db))))).
Proof.
  intros Hq Hm Hp. unfold find. simpl.
  destruct q as [|kv q]; [contradiction|].
  now rewrite (find_loop_filter _ _ m shown).
Qed.

(** ** Deleting *)

Lemma deleted_tombstone (d : obj) : deleted (tombstone d) = true.
Proof. unfold deleted, tombstone. now rewrite field_set_eq. Qed.



(** After the loop of [delete], an entry is the one the table had or its
    tombstone. *)
Lemma delete_loop_entry (query : value) (ks : list string) :
  forall t n t' r k d,
    delete_loop t ks query n = (t', r) ->
    prop_get t' k = Some d ->
    exists d0, prop_get t k = Some d0 /\ (d = d0 \/ deleted d = true).
Proof.
  induction ks as [|k0 ks IH]; simpl; intros t n t' r k d.
  - intros [= <- _] Hget. eauto.
  - destruct (prop_get t k0) as [d0|] eqn:Hget0; [|intros [= <- _]; eauto].
    destruct (if deleted d0 then Ok false else isQueryMatch d0 query)
      as [[|]|e]; [|apply IH|intros [= <- _]; eauto].
    intros Hloop Hget.
    destruct (IH _ _ _ _ _ _ Hloop Hget) as (d1 & Hget1 & Hd).
    rewrite prop_get_set in Hget1.
    destruct (String.eqb_spec k0 k) as [<-|Hne]; [|eauto].
    injection Hget1 as <-. exists d0. split; [assumption|].
    right. destruct Hd as [->|Hd]; [apply deleted_tombstone | assumption].
Qed.

Lemma delete_loop_settles (query : value) (ks : list string) :
  forall t n t' n',
    delete_loop t ks query n = (t', Ok n') ->
    forall k d, In k ks -> prop_get t' k = Some d -> left_alone query d.
Proof.
  induction ks as [|k0 ks IH]; simpl; intros t n t' n' Hloop k d;
    [contradiction|].
  destruct (prop_get t k0) as [d0|] eqn:Hget0; [|discriminate].
  destruct (deleted d0) eqn:Hdel0; simpl in Hloop.
  - intros [<-|Hin] Hget; [|eapply IH; eauto].
    destruct (delete_loop_entry _ _ _ _ _ _ _ _ Hloop Hget)
      as (d1 & Hget1 & [->|Hd]); [|now left].
    rewrite Hget0 in Hget1. injection Hget1 as <-. now left.
  - destruct (isQueryMatch d0 query) as [[|]|e] eqn:Hm; [| |discriminate].
    + intros [<-|Hin] Hget; [|eapply IH; eauto].
      destruct (delete_loop_entry _ _ _ _ _ _ _ _ Hloop Hget)
        as (d1 & Hget1 & [->|Hd]); [|now left].
      rewrite prop_get_set_eq in Hget1. injection Hget1 as <-.
      left. apply deleted_tombstone.
    + intros [<-|Hin] Hget; [|eapply IH; eauto].
      destruct (delete_loop_entry _ _ _ _ _ _ _ _ Hloop Hget)
        as (d1 & Hget1 & [->|Hd]); [|now left].
      rewrite Hget0 in Hget1. injection Hget1 as <-. now right.
Qed.

Lemma delete_loop_idle (query : value) (ks : list string) (t : table) :
  (forall k, In k ks -> exists d, prop_get t k = Some d /\ left_alone query d) ->
  forall n, delete_loop t ks query n = (t, Ok n).
Proof.
  induction ks as [|k0 ks IH]; simpl; intros Hall n; [reflexivity|].
  destruct (Hall k0 (or_introl eq_refl)) as (d & Hget & Hd).
  rewrite Hget. destruct (deleted d) eqn:Hdel.
  - apply IH. auto.
  - destruct Hd as [Hd | Hm]; [congruence|]. rewrite Hm. apply IH. auto.
Qed.

Lemma prop_get_key {A : Type} (o : list (string * A)) (k : string) :
  In k (Object_keys o) -> exists v, prop_get o k = Some v.
Proof.
  unfold Object_keys. induction o as [|[k0 v0] o IH]; simpl; [contradiction|].
  destruct (String.eqb_spec k k0) as [->|Hne]; [eauto|].
  intros [Heq|Hin]; [congruence | auto].
Qed.

(** X11: [delete] is idempotent.  When a call resolves, calling it again
    with the same query resolves with the count 0 and changes nothing: the
    documents it matched are tombstones now, and a tombstone is never
    matched. *)
Theorem delete_twice (db db' : LeafDB) (query : value) (n : Z) :
  delete db query = (Resolved (VNum n), db') ->
  delete db' query = (Resolved (VNum 0), db').
Proof.
  unfold delete. destruct (negb (isObject _)) eqn:Hq; [discriminate|].
  destruct (delete_loop (data db) _ _ 0) as [t [n'|e]] eqn:E; [|discriminate].
  intros [= <- <-]. simpl.
  assert (Object_keys t = Object_keys (data db)) as Hkeys
    by (eapply delete_loop_keys; exact E).
  rewrite delete_loop_idle; [now rewrite set_data_id|].
  intros k Hin. destruct (prop_get_key _ _ Hin) as [d Hget].
  exists d. split; [assumption|].
  rewrite Hkeys in Hin. eapply delete_loop_settles; eauto.
Qed.

(** ** drop *)

(** X12: [drop] on a file-backed instance empties the table and the file;
    a [load] of that file afterwards, by this or a fresh instance over the
    same file, finds no document and no corrupted line. *)
Theorem drop_then_load (db : LeafDB) (fs : files) (f : string) :
  file db = Some f ->
  root_given db = true ->
  let '(c, db', fs') := drop db fs in
  c = Resolved VUndef
  /\ data db' = []
  /\ fs' !! f = Some ""
  /\ load db' fs' = (Ok [], db', fs').
Proof.
  intros Hf Hroot. unfold drop, persist, persist_table. simpl. rewrite Hf.
  simpl. repeat split.
  - apply lookup_insert_eq.
  - unfold load, root_given in *. simpl. rewrite Hroot, Hf. simpl.
    now rewrite lookup_insert_eq.
Qed.

End StoreMore2.

(** * Further properties of load *)

Lemma load_line_doc (raw : string) (t : table) :
  raw <> "" ->
  match line_doc raw with
  | Some (k, d) => load_line raw t = Ok (prop_set t k d)
  | None => exists e, load_line raw t = Err e
  end.
Proof.
  intros Hraw. unfold line_doc, load_line, bind.
  destruct (String.eqb_spec raw ""); [contradiction|].
  destruct (JSON.parse _) as [[| | | | | |d]|e]; eauto.
  destruct (truthy (field d "_id")); eauto.
Qed.

Lemma load_lines_lenient (lines : list string) :
  forall t corrupted,
    load_lines false lines t corrupted
    = (fold_left store_line lines t,
       Ok (corrupted ++ List.filter corrupted_line lines)).
Proof.
  induction lines as [|raw lines IH]; intros t corrupted; simpl.
  - now rewrite app_nil_r.
  - unfold store_line at 2, corrupted_line at 1.
    destruct (String.eqb_spec raw "") as [->|Hraw].
    + simpl. apply IH.
    + pose proof (load_line_doc raw t Hraw) as Hline.
      destruct (line_doc raw) as [[k d]|]; simpl.
      * rewrite Hline. apply IH.
      * destruct Hline as [e ->]. rewrite IH. now rewrite <- app_assoc.
Qed.




Lemma load_lines_strict (lines : list string) :
  forall t,
    if existsb corrupted_line lines
    then exists t' e, load_lines true lines t [] = (t', Err e)
    else load_lines true lines t [] = (fold_left store_line lines t, Ok []).
Proof.
  induction lines as [|raw lines IH]; intros t; simpl; [reflexivity|].
  unfold store_line at 2, corrupted_line at 1.
  destruct (String.eqb_spec raw "") as [->|Hraw].
  - simpl. apply IH.
  - pose proof (load_line_doc raw t Hraw) as Hline.
    destruct (line_doc raw) as [[k d]|]; simpl.
    + rewrite Hline. apply IH.
    + destruct Hline as [e ->]. eauto.
Qed.


(** X16: a file-backed instance built with [autoload] over a file that
    does not exist starts with an empty table and creates the file, empty;
    an in-memory instance (no root) is built without touching any file. *)
Theorem new_LeafDB_fresh (name r : string) (strict_opt autoload : bool)
  (fs : files) :
  r <> "" ->
  name <> "" ->
  fs !! (r ++ "/" ++ name ++ ".txt")%string = None ->
  new_LeafDB name (Some r) true strict_opt fs
  = (Ok (mkLeafDB (Some r) strict_opt []
           (Some (r ++ "/" ++ name ++ ".txt")%string)),
     <[(r ++ "/" ++ name ++ ".txt")%string := ""]> fs)
  /\ new_LeafDB name None autoload strict_opt fs
     = (Ok (mkLeafDB None strict_opt [] None), fs).
Proof.
  intros Hr Hname Hnone. unfold new_LeafDB, load, root_given. simpl.
  destruct (String.eqb_spec r ""); [contradiction|].
  destruct (String.eqb_spec name ""); [contradiction|]. simpl.
  now rewrite Hnone.
Qed.

(** * Reading back what was written *)

(** ** Numbers *)

Lemma follows_not_digit (c : ascii) (rest : string) :
  follows_value (String c rest) = true ->
  digit_of c = None
  /\ (Ascii.eqb c "." || Ascii.eqb c "e" || Ascii.eqb c "E") = false
  /\ JSON.is_ws c = false.
Proof.
  simpl. intros Hc.
  destruct (Ascii.eqb_spec c ",") as [->|]; [repeat split|].
  destruct (Ascii.eqb_spec c "]") as [->|]; [repeat split|].
  destruct (Ascii.eqb_spec c "}") as [->|]; [repeat split|].
  discriminate.
Qed.

Lemma take_digits_uint (d : Decimal.uint) (rest : string) :
  follows_value rest = true ->
  forall acc,
    JSON.take_digits (NilEmpty.string_of_uint d ++ rest) acc
    = (uint_acc d acc, rest).
Proof.
  intros Hrest. induction d; intros acc; simpl; try apply IHd.
  destruct rest as [|c rest]; [reflexivity|].
  apply follows_not_digit in Hrest as (Hd & _). simpl. now rewrite Hd.
Qed.

Lemma uint_acc_pos (d : Decimal.uint) :
  forall a, uint_acc d (N.pos a) = N.pos (Pos.of_uint_acc d a).
Proof.
  induction d; intros a; simpl; try reflexivity;
    match goal with
    | |- uint_acc _ ?x = _ =>
        match goal with
        | |- _ = N.pos (Pos.of_uint_acc _ ?y) =>
            replace x with (N.pos y) by lia
        end
    end; apply IHd.
Qed.

Lemma uint_acc_zero (d : Decimal.uint) : uint_acc d 0 = Pos.of_uint d.
Proof.
  induction d; simpl; try reflexivity; try assumption;
    apply uint_acc_pos.
Qed.

Lemma to_uint_normal (p : positive) :
  Decimal.unorm (Pos.to_uint p) = Pos.to_uint p.
Proof.
  rewrite <- DecimalPos.Unsigned.to_of, DecimalPos.Unsigned.of_to.
  reflexivity.
Qed.

(** The decimal form of a positive number does not start with [0]. *)
Lemma to_uint_head (p : positive) (l : Decimal.uint) :
  Pos.to_uint p <> Decimal.D0 l.
Proof.
  intros Hd. pose proof (to_uint_normal p) as Hnorm.
  unfold Decimal.unorm in Hnorm.
  destruct (Decimal.nzhead (Pos.to_uint p)) eqn:Hnz;
    try (rewrite Hd in Hnorm; discriminate Hnorm).
  - apply (DecimalPos.Unsigned.to_uint_nonzero p). now rewrite <- Hnorm.
  - now apply DecimalFacts.nzhead_nonzero in Hnz.
Qed.

Lemma parse_natural_positive (p : positive) (rest : string) :
  follows_value rest = true ->
  JSON.parse_natural (NilEmpty.string_of_uint (Pos.to_uint p) ++ rest)
  = JSON.Parsed (N.pos p) rest.
Proof.
  intros Hrest.
  pose proof (DecimalPos.Unsigned.of_to p) as Hof.
  pose proof (DecimalPos.Unsigned.to_uint_nonnil p) as Hnil.
  pose proof (to_uint_head p) as Hhead.
  rewrite <- uint_acc_zero in Hof.
  assert (forall n : N,
             match rest with
             | String x _ =>
                 if Ascii.eqb x "." || Ascii.eqb x "e" || Ascii.eqb x "E"
                 then JSON.Malformed else JSON.Parsed n rest
             | EmptyString => JSON.Parsed n rest
             end = JSON.Parsed n rest) as Hfollow.
  { intros n. destruct rest as [|c rest]; [reflexivity|].
    apply follows_not_digit in Hrest as (_ & -> & _). reflexivity. }
  destruct (Pos.to_uint p) as [|l|l|l|l|l|l|l|l|l|l];
    [contradiction | exfalso; now apply (Hhead l) | ..];
    unfold JSON.parse_natural; simpl;
    rewrite (take_digits_uint l rest Hrest); simpl in Hof;
    rewrite Hfollow; now rewrite <- Hof.
Qed.

(** ** Strings *)

Lemma string_app_assoc (a b c : string) :
  ((a ++ b) ++ c = a ++ (b ++ c))%string.
Proof.
  induction a as [|x a IH]; [reflexivity|].
  change (String x ((a ++ b) ++ c) = String x (a ++ (b ++ c)))%string.
  now rewrite IH.
Qed.

Lemma parse_string_escape_char (c : ascii) (tail : string) :
  JSON.parse_string (JSON.escape_char c ++ tail)
  = match JSON.parse_string tail with
    | JSON.Parsed t r => JSON.Parsed (String c t) r
    | JSON.Malformed => JSON.Malformed
    | JSON.Exhausted => JSON.Exhausted
    end.
Proof. destruct c as [[] [] [] [] [] [] [] []]; reflexivity. Qed.

(** An escaped string, closed by a quote, reads back as the string. *)
Lemma parse_string_escape (s tail : string) :
  JSON.parse_string (JSON.escape s ++ String JSON.dquote tail)
  = JSON.Parsed s tail.
Proof.
  induction s as [|c s IH]; [reflexivity|].
  cbn [JSON.escape]. rewrite string_app_assoc, parse_string_escape_char.
  now rewrite IH.
Qed.

Lemma parse_string_quote (s tail : string) :
  exists body,
    (JSON.quote s ++ tail)%string = String JSON.dquote body
    /\ JSON.parse_string body = JSON.Parsed s tail.
Proof.
  exists (JSON.escape s ++ String JSON.dquote tail)%string. split.
  - unfold JSON.quote.
    change (String JSON.dquote
              ((JSON.escape s ++ String JSON.dquote "") ++ tail)
            = String JSON.dquote (JSON.escape s ++ String JSON.dquote tail))
      %string.
    now rewrite string_app_assoc.
  - apply parse_string_escape.
Qed.

(** ** Values *)

Lemma opens_value_app (a b : string) :
  opens_value a -> opens_value (a ++ b).
Proof.
  intros (c & a' & -> & Hc). exists c, (a' ++ b)%string. now split.
Qed.

Lemma digits_open (d : Decimal.uint) :
  d <> Decimal.Nil ->
  exists c r, NilEmpty.string_of_uint d = String c r
              /\ digit_of c <> None /\ opens_value (String c r).
Proof.
  destruct d; [contradiction|..]; intros _; simpl;
    eexists _, _; (split; [reflexivity|]);
    (split; [discriminate|]); eexists _, _; repeat split.
Qed.

Lemma number_opens (n : Z) : opens_value (number_to_string n).
Proof.
  unfold number_to_string, NilZero.string_of_int, NilZero.string_of_uint.
  destruct n as [|p|p]; simpl.
  - eexists _, _. repeat split.
  - pose proof (DecimalPos.Unsigned.to_uint_nonnil p) as Hnil.
    destruct (digits_open _ Hnil) as (c & r & Heq & _ & Hopen).
    destruct (Pos.to_uint p); [contradiction|..]; now rewrite Heq.
  - eexists _, _. repeat split.
Qed.

Lemma stringify_opens (v : value) (s : string) :
  JSON.stringify v = Some s -> opens_value s.
Proof.
  destruct v as [| |[]| | | |]; simpl; intros [= <-];
    try (eexists _, _; repeat split; fail).
  apply number_opens.
Qed.

Lemma element_text_opens (e : value) : opens_value (element_text e).
Proof.
  unfold element_text. destruct (JSON.stringify e) as [t|] eqn:E.
  - eapply stringify_opens, E.
  - eexists _, _. repeat split.
Qed.

Lemma concat_opens (sep x : string) (xs : list string) :
  opens_value x -> opens_value (String.concat sep (x :: xs)).
Proof.
  intros Hx. simpl. destruct xs; [assumption|]. now apply opens_value_app.
Qed.

Lemma parse_value_digit (c : ascii) (r : string) (fuel : nat) :
  digit_of c <> None ->
  JSON.parse_value (S fuel) (String c r)
  = match JSON.parse_natural (String c r) with
    | JSON.Parsed n r' => JSON.Parsed (VNum (Z.of_N n)) r'
    | JSON.Malformed => JSON.Malformed
    | JSON.Exhausted => JSON.Exhausted
    end.
Proof.
  intros Hd.
  destruct c as [[] [] [] [] [] [] [] []];
    try (exfalso; apply Hd; reflexivity); reflexivity.
Qed.

Lemma parse_value_minus (r : string) (fuel : nat) :
  JSON.parse_value (S fuel) (String "-" r)
  = match JSON.parse_natural r with
    | JSON.Parsed n r' => JSON.Parsed (VNum (- Z.of_N n)) r'
    | JSON.Malformed => JSON.Malformed
    | JSON.Exhausted => JSON.Exhausted
    end.
Proof. reflexivity. Qed.

Lemma parse_value_number (n : Z) (fuel : nat) (rest : string) :
  follows_value rest = true ->
  JSON.parse_value (S fuel) (number_to_string n ++ rest)
  = JSON.Parsed (VNum n) rest.
Proof.
  intros Hrest.
  assert (forall m : N,
             match rest with
             | String x _ =>
                 if Ascii.eqb x "." || Ascii.eqb x "e" || Ascii.eqb x "E"
                 then JSON.Malformed else JSON.Parsed m rest
             | EmptyString => JSON.Parsed m rest
             end = JSON.Parsed m rest) as Hfollow.
  { intros m. destruct rest as [|c rest]; [reflexivity|].
    apply follows_not_digit in Hrest as (_ & -> & _). reflexivity. }
  unfold number_to_string, NilZero.string_of_int, NilZero.string_of_uint.
  destruct n as [|p|p]; cbn [Z.to_int].
  - change (JSON.parse_value (S fuel) (String "0" rest)
            = JSON.Parsed (VNum 0) rest).
    rewrite parse_value_digit by discriminate.
    unfold JSON.parse_natural. change (digit_of "0") with (Some 0%N).
    cbv beta iota zeta. change ((0 =? 0)%N) with true. cbv beta iota zeta.
    now rewrite Hfollow.
  - pose proof (DecimalPos.Unsigned.to_uint_nonnil p) as Hnil.
    destruct (digits_open _ Hnil) as (c & r & Heq & Hc & _).
    replace (match Pos.to_uint p with
             | Decimal.Nil => "0"
             | _ => NilEmpty.string_of_uint (Pos.to_uint p)
             end) with (NilEmpty.string_of_uint (Pos.to_uint p))
      by (destruct (Pos.to_uint p); [contradiction | reflexivity..]).
    pose proof (parse_natural_positive p rest Hrest) as Hnat.
    rewrite Heq in *.
    change (String c r ++ rest)%string with (String c (r ++ rest)) in *.
    now rewrite parse_value_digit, Hnat.
  - pose proof (DecimalPos.Unsigned.to_uint_nonnil p) as Hnil.
    replace (match Pos.to_uint p with
             | Decimal.Nil => "0"
             | _ => NilEmpty.string_of_uint (Pos.to_uint p)
             end) with (NilEmpty.string_of_uint (Pos.to_uint p))
      by (destruct (Pos.to_uint p); [contradiction | reflexivity..]).
    pose proof (parse_natural_positive p rest Hrest) as Hnat.
    change (JSON.parse_value (S fuel)
              (String "-"
                 (NilEmpty.string_of_uint (Pos.to_uint p) ++ rest))
            = JSON.Parsed (VNum (Z.neg p)) rest).
    now rewrite parse_value_minus, Hnat.
Qed.

Lemma skip_ws_opens (s : string) : opens_value s -> JSON.skip_ws s = s.
Proof. intros (c & s' & -> & Hws & _). simpl. now rewrite Hws. Qed.

Lemma parse_value_array (r : string) (fuel : nat) :
  JSON.parse_value (S fuel) (String "[" r)
  = match JSON.skip_ws r with
    | String x r' =>
        if Ascii.eqb x "]" then JSON.Parsed (VArr []) r'
        else JSON.parse_elements fuel r []
    | EmptyString => JSON.Malformed
    end.
Proof. reflexivity. Qed.

Lemma parse_value_object (r : string) (fuel : nat) :
  JSON.parse_value (S fuel) (String "{" r)
  = match JSON.skip_ws r with
    | String x r' =>
        if Ascii.eqb x "}" then JSON.Parsed (VObj []) r'
        else JSON.parse_members fuel r []
    | EmptyString => JSON.Malformed
    end.
Proof. reflexivity. Qed.

Lemma parse_value_quoted (body : string) (fuel : nat) :
  JSON.parse_value (S fuel) (String JSON.dquote body)
  = match JSON.parse_string body with
    | JSON.Parsed t r' => JSON.Parsed (VStr t) r'
    | JSON.Malformed => JSON.Malformed
    | JSON.Exhausted => JSON.Exhausted
    end.
Proof. reflexivity. Qed.

Lemma concat_cons2 (sep x y : string) (l : list string) :
  String.concat sep (x :: y :: l)
  = (x ++ sep ++ String.concat sep (y :: l))%string.
Proof. reflexivity. Qed.

(** The elements of an array, written and read back. *)
Lemma parse_elements_texts (l : list value) :
  Forall (fun e => forall fuel rest,
              follows_value rest = true ->
              reads (JSON.parse_value fuel (element_text e ++ rest))
                (element_back e) rest) l ->
  l <> [] ->
  forall fuel acc rest,
    reads
      (JSON.parse_elements fuel
         (String.concat "," (map element_text l) ++ String "]" rest) acc)
      (VArr (acc ++ map element_back l)) rest.
Proof.
  induction 1 as [|e l He _ IH]; [contradiction|]. intros _ fuel acc rest.
  destruct fuel as [|fuel]; [now right|].
  cbn [JSON.parse_elements]. destruct l as [|e' l].
  - cbn [map String.concat].
    destruct (He fuel (String "]" rest) eq_refl) as [-> | ->];
      [now left | now right].
  - cbn [map]. rewrite concat_cons2, !string_app_assoc.
    destruct (He fuel
                ("," ++ String.concat "," (element_text e' :: map element_text l)
                 ++ String "]" rest)%string eq_refl) as [-> | ->];
      [|now right].
    cbn [JSON.skip_ws JSON.is_ws]. cbn.
    specialize (IH ltac:(discriminate) fuel (acc ++ [element_back e]) rest).
    cbn [map] in IH. now rewrite <- app_assoc in IH.
Qed.

(** The members of an object, written and read back. *)
Lemma parse_members_texts (o : obj) :
  Forall (fun kv => forall fuel rest,
              follows_value rest = true ->
              reads (JSON.parse_value fuel (element_text (snd kv) ++ rest))
                (canon (snd kv)) rest) o ->
  o <> [] ->
  forall fuel acc rest,
    reads
      (JSON.parse_members fuel
         (String.concat "," (map member_text o) ++ String "}" rest) acc)
      (VObj (fold_left member_back o acc)) rest.
Proof.
  induction 1 as [|[k v] o Hv _ IH]; [contradiction|].
  intros _ fuel acc rest.
  destruct fuel as [|fuel]; [now right|].
  assert (forall tail,
             reads
               (JSON.parse_members (S fuel)
                  (member_text (k, v) ++ tail) acc)
               (VObj (fold_left member_back o (member_back acc (k, v)))) rest
             <-> reads
                   (match JSON.parse_value fuel (element_text v ++ tail) with
                    | JSON.Parsed x r3 =>
                        match JSON.skip_ws r3 with
                        | String c r4 =>
                            if Ascii.eqb c "," then
                              JSON.parse_members fuel r4 (prop_set acc k x)
                            else if Ascii.eqb c "}" then
                              JSON.Parsed (VObj (prop_set acc k x)) r4
                            else JSON.Malformed
                        | EmptyString => JSON.Malformed
                        end
                    | JSON.Malformed => JSON.Malformed
                    | JSON.Exhausted => JSON.Exhausted
                    end)
                   (VObj (fold_left member_back o (member_back acc (k, v))))
                   rest) as Hstep.
  { intros tail. unfold member_text. cbn [fst snd].
    rewrite !string_app_assoc.
    destruct (parse_string_quote k (":" ++ element_text v ++ tail)%string)
      as (body & -> & Hbody).
    cbn [JSON.parse_members JSON.skip_ws].
    change (JSON.is_ws JSON.dquote) with false. cbv iota.
    change (Ascii.eqb JSON.dquote JSON.dquote) with true. cbv iota.
    rewrite Hbody. reflexivity. }
  cbn [fold_left]. destruct o as [|kv' o].
  - cbn [map String.concat]. apply Hstep. simpl in Hv.
    destruct (Hv fuel (String "}" rest) eq_refl) as [-> | ->];
      [now left | now right].
  - cbn [map]. rewrite concat_cons2, !string_app_assoc. apply Hstep.
    simpl in Hv.
    destruct (Hv fuel
                ("," ++ String.concat "," (member_text kv' :: map member_text o)
                 ++ String "}" rest)%string eq_refl) as [-> | ->];
      [|now right].
    cbn [JSON.skip_ws JSON.is_ws]. cbn.
    apply (IH ltac:(discriminate) fuel (prop_set acc k (canon v)) rest).
Qed.

Lemma stringify_none (v : value) : JSON.stringify v = None -> v = VUndef.
Proof. destruct v as [| |[]| | | |]; simpl; congruence. Qed.

Lemma element_reads (e : value) :
  (forall s, JSON.stringify e = Some s ->
             forall fuel rest,
               follows_value rest = true ->
               reads (JSON.parse_value fuel (s ++ rest)) (canon e) rest) ->
  forall fuel rest,
    follows_value rest = true ->
    reads (JSON.parse_value fuel (element_text e ++ rest))
      (element_back e) rest.
Proof.
  intros He fuel rest Hrest. unfold element_text.
  destruct (JSON.stringify e) as [t|] eqn:E.
  - replace (element_back e) with (canon e)
      by (destruct e; [discriminate E | reflexivity..]).
    now apply He.
  - apply stringify_none in E as ->.
    destruct fuel; [now right | now left].
Qed.

Lemma stringify_some (v : value) :
  v <> VUndef -> JSON.stringify v = Some (element_text v).
Proof. destruct v as [| |[]| | | |]; [contradiction | reflexivity..]. Qed.

Lemma flat_map_written (o : obj) :
  flat_map (fun kv => match JSON.stringify (snd kv) with
                      | Some t => [(JSON.quote (fst kv) ++ ":" ++ t)%string]
                      | None => []
                      end) o
  = map member_text (List.filter written o).
Proof.
  induction o as [|[k v] o IH]; [reflexivity|].
  cbn [flat_map List.filter fst snd].
  destruct (written (k, v)) eqn:Hw; unfold written in Hw; cbn [snd] in Hw.
  - rewrite (stringify_some v) by (intros ->; discriminate).
    cbn [map app]. unfold member_text at 1. cbn [fst snd]. now rewrite IH.
  - assert (v = VUndef) as -> by (destruct v; congruence). exact IH.
Qed.

Lemma canon_fold (o : obj) :
  forall acc,
    fold_left (fun acc kv => match snd kv with
                             | VUndef => acc
                             | _ => prop_set acc (fst kv) (canon (snd kv))
                             end) o acc
    = fold_left member_back (List.filter written o) acc.
Proof.
  induction o as [|[k v] o IH]; intros acc; [reflexivity|].
  cbn [fold_left List.filter]. unfold written at 1. cbn [fst snd].
  destruct v; cbn [fold_left]; apply IH.
Qed.

(** [JSON.parse] of the text [JSON.stringify] wrote, followed by what may
    follow a value, reads the value back. *)
Lemma parse_stringify (v : value) :
  forall s,
    JSON.stringify v = Some s ->
    forall fuel rest,
      follows_value rest = true ->
      reads (JSON.parse_value fuel (s ++ rest)) (canon v) rest.
Proof.
  induction v as [| | b | n | t | l IH | o IH] using value_nested_ind;
    intros s Hs fuel rest Hrest;
    (destruct fuel as [|fuel]; [now right|]).
  - discriminate.
  - left. now injection Hs as <-.
  - left. destruct b; now injection Hs as <-.
  - left. injection Hs as <-. now apply parse_value_number.
  - left. injection Hs as <-.
    destruct (parse_string_quote t rest) as (body & -> & Hbody).
    now rewrite parse_value_quoted, Hbody.
  - cbn [JSON.stringify] in Hs. injection Hs as <-.
    change (reads
              (JSON.parse_value (S fuel)
                 (String "["
                    ((String.concat "," (map element_text l) ++ "]") ++ rest)))
              (canon (VArr l)) rest)%string.
    rewrite string_app_assoc, parse_value_array.
    destruct l as [|e l]; [now left|].
    assert (opens_value
              (String.concat "," (map element_text (e :: l))
               ++ "]" ++ rest)%string) as Hopen
      by apply opens_value_app, concat_opens, element_text_opens.
    rewrite (skip_ws_opens _ Hopen).
    destruct Hopen as (c & r & Heq & _ & Hc & _). rewrite Heq, Hc, <- Heq.
    assert (Forall (fun e => forall fuel rest,
                        follows_value rest = true ->
                        reads (JSON.parse_value fuel (element_text e ++ rest))
                          (element_back e) rest) (e :: l)) as Hall.
    { eapply List.Forall_impl; [|exact IH]. intros x. apply element_reads. }
    exact (parse_elements_texts _ Hall ltac:(discriminate) fuel [] rest).
  - cbn [JSON.stringify] in Hs. injection Hs as <-.
    rewrite flat_map_written.
    change (reads
              (JSON.parse_value (S fuel)
                 (String "{"
                    ((String.concat ","
                        (map member_text (List.filter written o)) ++ "}")
                     ++ rest)))
              (canon (VObj o)) rest)%string.
    cbn [canon]. rewrite canon_fold.
    rewrite string_app_assoc, parse_value_object.
    assert (Forall (fun kv => forall fuel rest,
                        follows_value rest = true ->
                        reads
                          (JSON.parse_value fuel
                             (element_text (snd kv) ++ rest))
                          (canon (snd kv)) rest) (List.filter written o))
      as Hall.
    { apply List.Forall_forall. intros [k x] [Hin Hw]%filter_In.
      rewrite List.Forall_forall in IH. specialize (IH _ Hin).
      cbn [snd] in *.
      replace (canon x) with (element_back x)
        by (destruct x; [discriminate Hw | reflexivity..]).
      now apply element_reads. }
    destruct (List.filter written o) as [|kv o'] eqn:Hfilter; [now left|].
    assert (opens_value
              (String.concat "," (map member_text (kv :: o'))
               ++ "}" ++ rest)%string) as Hopen.
    { apply opens_value_app, concat_opens. unfold member_text, JSON.quote.
      eexists _, _. repeat split. }
    rewrite (skip_ws_opens _ Hopen).
    destruct Hopen as (c & r & Heq & _ & _ & Hc). rewrite Heq, Hc, <- Heq.
    exact (parse_members_texts _ Hall ltac:(discriminate) fuel [] rest).
Qed.

Lemma string_app_nil (s : string) : (s ++ "")%string = s.
Proof.
  induction s as [|c s IH]; [reflexivity|].
  change (String c (s ++ "") = String c s)%string. now rewrite IH.
Qed.

(** [JSON.parse] undoes [JSON.stringify].  Parsing the text written
    for a value gives the value back, up to what JSON cannot carry: an
    [undefined] array element is read as [null], an [undefined] member is
    not read, and members come back in own-key order. *)
Theorem parse_stringify_back (v : value) (s : string) :
  JSON.stringify v = Some s -> JSON.parse s = Ok (canon v).
Proof.
  intros Hs. unfold JSON.parse.
  pose proof (parse_stringify v s Hs (2 * String.length s + 2) "" eq_refl)
    as Hread.
  rewrite string_app_nil in Hread.
  pose proof (proj1 (parse_value_consumes (2 * String.length s + 2)) s
                ltac:(lia)) as Hc.
  destruct Hread as [Hp|Hp]; rewrite Hp in *; [reflexivity | contradiction].
Qed.

(** * persist, then load *)

Lemma replace_backslash_free (s : string) :
  backslash_free s = true -> replace_first_backslash s = s.
Proof.
  induction s as [|c s IH]; simpl; [reflexivity|].
  intros [Hc Hs]%andb_prop. apply negb_true_iff in Hc.
  now rewrite Hc, IH.
Qed.

Lemma row_not_empty (d : obj) : row d <> "".
Proof. unfold row. simpl. discriminate. Qed.

(** The line written for a document that keeps well gives the document
    back, under the key its [_id] names. *)
Lemma line_doc_row (d : obj) :
  keeps_well d -> line_doc (row d) = Some (toPropertyKey (field d "_id"), d).
Proof.
  intros (Hfree & Hcanon & Hid). unfold line_doc.
  destruct (String.eqb_spec (row d) "") as [Hrow|_];
    [now apply row_not_empty in Hrow|].
  rewrite (replace_backslash_free _ Hfree).
  rewrite (parse_stringify_back (VObj d) (row d) (stringify_row d)), Hcanon.
  now rewrite Hid.
Qed.

Lemma fold_store_rows (docs : list obj) :
  Forall keeps_well docs ->
  forall t,
    fold_left store_line (map row docs) t = insert_all t docs
    /\ List.filter corrupted_line (map row docs) = [].
Proof.
  induction 1 as [|d docs Hd _ IH]; intros t; simpl; [auto|].
  unfold store_line at 2, corrupted_line at 1.
  rewrite (line_doc_row d Hd).
  destruct (IH (prop_set t (toPropertyKey (field d "_id")) d)) as [-> ->].
  now rewrite andb_false_r.
Qed.

Lemma filter_nil_existsb {A : Type} (p : A -> bool) (l : list A) :
  List.filter p l = [] -> existsb p l = false.
Proof.
  induction l as [|a l IH]; simpl; [reflexivity|].
  destruct (p a); [discriminate | exact IH].
Qed.

(** Loading a file that holds the rows of documents that keep well. *)
Lemma load_rows (this : LeafDB) (fs : files) (f : string) (docs : list obj) :
  root_given this = true ->
  file this = Some f ->
  fs !! f = Some (String.concat (String LF "") (map row docs)) ->
  Forall keeps_well docs ->
  load this fs = (Ok [], set_data this (insert_all (data this) docs), fs).
Proof.
  intros Hroot Hfile Htext Hwell.
  assert (load_lines (strict this)
            (split_lines (String.concat (String LF "") (map row docs)))
            (data this) []
          = (insert_all (data this) docs, Ok [])) as Hload.
  { destruct docs as [|d docs]; [now destruct (strict this)|].
    assert (split_lines
              (String.concat (String LF "") (map row (d :: docs)))
            = map row (d :: docs)) as ->.
    { apply (split_lines_joined (row d) (map row docs)).
      apply List.Forall_forall.
      intros s (x & <- & _)%(in_map_iff row (d :: docs)).
      apply one_line_row. }
    destruct (fold_store_rows _ Hwell (data this)) as [Hfold Hnone].
    destruct (strict this).
    - pose proof (load_lines_strict (map row (d :: docs)) (data this))
        as Hstrict.
      rewrite (filter_nil_existsb _ _ Hnone) in Hstrict.
      now rewrite Hstrict, Hfold.
    - now rewrite load_lines_lenient, Hfold, Hnone. }
  unfold load. rewrite Hroot, Hfile, Htext. cbn [negb]. now rewrite Hload.
Qed.

(** The text [persist] leaves in the file of the instance. *)
Lemma persist_text (db : LeafDB) (fs : files) (f : string) :
  file db = Some f ->
  snd (persist db fs) !! f
  = Some (String.concat (String LF "") (map row (live_docs (data db)))).
Proof.
  intros Hf. unfold persist, persist_table. rewrite Hf. simpl.
  rewrite persist_payload_live. unfold join_lines. rewrite map_map.
  apply lookup_insert_eq.
Qed.

(** X17: [persist], then [load] by a fresh instance over the same file
    (strict or not), when every live document keeps well.  No line is
    reported as corrupted, nothing is thrown, the file is left as written,
    and the table is rebuilt by storing the live documents, in table order,
    each under the key its [_id] names; tombstones do not come back. *)
Theorem persist_then_load (db : LeafDB) (fs : files) (f : string)
  (strict_opt : bool) :
  file db = Some f ->
  root_given db = true ->
  Forall keeps_well (live_docs (data db)) ->
  let fs1 := snd (persist db fs) in
  let fresh := mkLeafDB (root db) strict_opt [] (file db) in
  load fresh fs1
  = (Ok [], set_data fresh (insert_all [] (live_docs (data db))), fs1).
Proof.
  intros Hfile Hroot Hwell fs1 fresh.
  pose proof (persist_text db fs f Hfile) as Htext.
  apply (load_rows fresh fs1 f (live_docs (data db)));
    [exact Hroot | exact Hfile | exact Htext | exact Hwell].
Qed.

(** ** Tables with one entry per key *)

Lemma prop_get_absent {A : Type} (o : list (string * A)) (k : string) :
  ~ In k (Object_keys o) -> prop_get o k = None.
Proof.
  unfold Object_keys. induction o as [|[k0 v0] o IH]; simpl; [reflexivity|].
  intros Hnot. destruct (String.eqb_spec k k0) as [->|Hne]; [tauto|].
  apply IH. tauto.
Qed.

Lemma prop_set_same {A : Type} (o : list (string * A)) (k : string) (v : A) :
  prop_get o k = Some v -> prop_set o k v = o.
Proof.
  intros Hget. unfold prop_set. rewrite (prop_has_get _ _ _ Hget).
  induction o as [|[k0 v0] o IH]; simpl in *; [discriminate|].
  destruct (String.eqb_spec k k0) as [->|Hne].
  - now injection Hget as ->.
  - now rewrite IH.
Qed.

(** Storing the live documents of a table with one entry per key, each
    under the key its [_id] names, gives every key its live document. *)
Lemma insert_all_live_get (t0 : table) :
  List.NoDup (Object_keys t0) ->
  id_names_keyb t0 = true ->
  forall acc k,
    prop_get (insert_all acc (live_docs t0)) k =
    match prop_get t0 k with
    | Some d => if live d then Some d else prop_get acc k
    | None => prop_get acc k
    end.
Proof.
  unfold live_docs, Object_values, Object_keys.
  induction t0 as [|[k0 d0] t0 IH]; intros Hnodup Hnames acc k;
    [reflexivity|].
  cbn [map fst] in Hnodup.
  apply List.NoDup_cons_iff in Hnodup as [Hk0 Hnodup].
  cbn [id_names_keyb forallb fst snd] in Hnames.
  apply andb_prop in Hnames as [Hkey%String.eqb_eq Hnames].
  cbn [map List.filter snd prop_get].
  destruct (live d0) eqn:Hlive; cbn [insert_all]; rewrite IH by assumption.
  - rewrite Hkey. destruct (String.eqb_spec k k0) as [->|Hne].
    + now rewrite (prop_get_absent _ _ Hk0), prop_get_set_eq, Hlive.
    + rewrite prop_get_set_ne by congruence. reflexivity.
  - destruct (String.eqb_spec k k0) as [->|Hne]; [|reflexivity].
    now rewrite (prop_get_absent _ _ Hk0), Hlive.
Qed.

(** X18: the round trip, read by identifier.  On a table with one entry
    per key whose documents carry the [_id] that names their key, and whose
    live documents keep well, [persist] followed by [load] in a fresh
    instance gives a table in which every key of a live document holds that
    document and no other key holds anything: the tombstones are gone. *)
Theorem persist_load_lookup (db : LeafDB) (fs : files) (f : string)
  (strict_opt : bool) (k : string) :
  file db = Some f ->
  root_given db = true ->
  Forall keeps_well (live_docs (data db)) ->
  List.NoDup (Object_keys (data db)) ->
  id_names_keyb (data db) = true ->
  let fresh := mkLeafDB (root db) strict_opt [] (file db) in
  fst (fst (load fresh (snd (persist db fs)))) = Ok []
  /\ prop_get (data (snd (fst (load fresh (snd (persist db fs)))))) k =
     match prop_get (data db) k with
     | Some d => if live d then Some d else None
     | None => None
     end.
Proof.
  intros Hfile Hroot Hwell Hnodup Hnames fresh.
  pose proof (load_rows fresh (snd (persist db fs)) f (live_docs (data db))
                Hroot Hfile (persist_text db fs f Hfile) Hwell) as Hload.
  rewrite Hload. cbn [fst snd].
  split; [reflexivity|]. cbn [data set_data].
  now rewrite insert_all_live_get by assumption.
Qed.

Lemma prop_get_entry {A : Type} (o : list (string * A)) (k : string) (v : A) :
  List.NoDup (Object_keys o) -> In (k, v) o -> prop_get o k = Some v.
Proof.
  unfold Object_keys. induction o as [|[k0 v0] o IH]; simpl; [contradiction|].
  intros [Hk0 Hnodup]%List.NoDup_cons_iff [[= -> ->]|Hin].
  - now rewrite String.eqb_refl.
  - destruct (String.eqb_spec k k0) as [->|Hne]; [|auto].
    exfalso. apply Hk0. apply in_map_iff. now exists (k0, v).
Qed.

Lemma insert_all_same (docs : list obj) (t : table) :
  Forall (fun d => prop_get t (toPropertyKey (field d "_id")) = Some d) docs ->
  insert_all t docs = t.
Proof.
  induction 1 as [|d docs Hd _ IH]; simpl; [reflexivity|].
  now rewrite (prop_set_same _ _ _ Hd).
Qed.

Lemma live_docs_stored (t : table) :
  List.NoDup (Object_keys t) ->
  id_names_keyb t = true ->
  Forall (fun d => prop_get t (toPropertyKey (field d "_id")) = Some d)
    (live_docs t).
Proof.
  intros Hnodup Hnames. apply List.Forall_forall.
  intros d [Hin _]%filter_In. unfold Object_values in Hin.
  apply in_map_iff in Hin as ([k d'] & Heq & Hin). cbn [snd] in Heq. subst d'.
  unfold id_names_keyb in Hnames. rewrite forallb_forall in Hnames.
  specialize (Hnames _ Hin). cbn [fst snd] in Hnames.
  apply String.eqb_eq in Hnames. rewrite Hnames.
  now apply prop_get_entry.
Qed.

(** X19: [load] does not clean the memory of the instance that wrote the
    file.  On such a table, [persist] followed by [load] in the same
    instance leaves the instance exactly as it was: the live documents are
    stored again under their keys and every tombstone is still there. *)
Theorem persist_load_same_instance (db : LeafDB) (fs : files) (f : string) :
  file db = Some f ->
  root_given db = true ->
  Forall keeps_well (live_docs (data db)) ->
  List.NoDup (Object_keys (data db)) ->
  id_names_keyb (data db) = true ->
  load db (snd (persist db fs)) = (Ok [], db, snd (persist db fs)).
Proof.
  intros Hfile Hroot Hwell Hnodup Hnames.
  pose proof (persist_text db fs f Hfile) as Htext.
  rewrite (load_rows db _ f (live_docs (data db)) Hroot Hfile Htext Hwell).
  rewrite (insert_all_same _ _ (live_docs_stored _ Hnodup Hnames)).
  now rewrite set_data_id.
Qed.

(** * objectHas *)

Lemma stack_weight_app (a b : list (string * value)) :
  stack_weight (a ++ b) = stack_weight a + stack_weight b.
Proof. unfold stack_weight. now rewrite map_app, list_sum_app. Qed.

Lemma stack_weight_rev (a : list (string * value)) :
  stack_weight (rev a) = stack_weight a.
Proof.
  induction a as [|kv a IH]; [reflexivity|].
  cbn [rev]. rewrite stack_weight_app, IH. unfold stack_weight. simpl. lia.
Qed.

Lemma stack_weight_indexed (l : list value) :
  forall i, stack_weight (indexed i l) = list_sum (map (fun e => S (weight e)) l).
Proof.
  induction l as [|e l IH]; intros i; [reflexivity|].
  unfold stack_weight in *. simpl. now rewrite IH.
Qed.

Lemma weight_entries (v : value) :
  stack_weight (Object_entries v) = weight v.
Proof.
  destruct v; try reflexivity. apply stack_weight_indexed.
Qed.

Lemma objectHas_loop_spec (validator : string -> value -> bool) (fuel : nat) :
  forall stack,
    stack_weight stack < fuel ->
    exists b, objectHas_loop validator fuel stack = Some b
              /\ (b = true <-> stack_has validator stack).
Proof.
  induction fuel as [|fuel IH]; intros stack Hfuel; [lia|].
  destruct stack as [|[key v] stack]; cbn [objectHas_loop].
  - exists false. split; [reflexivity|]. split; [discriminate|].
    intros (k & x & [] & _).
  - destruct (validator key v) eqn:Hv.
    + exists true. split; [reflexivity|]. split; [|reflexivity].
      intros _. exists key, v. split; [now left | now left].
    + assert (stack_weight ((key, v) :: stack)
              = S (weight v + stack_weight stack)) as Hw by reflexivity.
      assert (forall below,
                 below = Object_entries v ->
                 exists b,
                   objectHas_loop validator fuel (rev below ++ stack) = Some b
                   /\ (b = true <-> stack_has validator ((key, v) :: stack)))
        as Hpush.
      { intros below ->.
        destruct (IH (rev (Object_entries v) ++ stack)) as (b & Hb & Hiff).
        { rewrite stack_weight_app, stack_weight_rev, weight_entries. lia. }
        exists b. split; [exact Hb|]. rewrite Hiff. split.
        - intros (k & x & Hin & Hx). apply in_app_or in Hin as [Hin|Hin].
          + apply in_rev in Hin. exists key, v. split; [now left|]. right.
            destruct Hx as [Hx|(key' & v' & Hn & Hx)].
            * exists k, x. split; [now apply nested_here | exact Hx].
            * exists key', v'. split; [|exact Hx].
              now apply (nested_below _ _ _ k x).
          + exists k, x. split; [now right | exact Hx].
        - intros (k & x & [[= <- <-]|Hin] & Hx).
          + destruct Hx as [Hx|(key' & v' & Hn & Hx)]; [congruence|].
            destruct Hn as [Hin|k2 x2 Hin Hn].
            * exists key', v'. split; [|now left].
              apply in_or_app. left. now apply in_rev in Hin.
            * exists k2, x2. split; [|right; eauto].
              apply in_or_app. left. now apply in_rev in Hin.
          + exists k, x. split; [|exact Hx]. apply in_or_app. now right. }
      destruct (truthy v && is_container v) eqn:Hc; [now apply Hpush|].
      assert (Object_entries v = []) as Hnone.
      { destruct v; try reflexivity; simpl in Hc; discriminate. }
      specialize (Hpush [] (eq_sym Hnone)). exact Hpush.
Qed.

(** X20: [objectHas] ends on every value, and answers [true] exactly when
    the validator accepts some entry of the object or of a value nested in
    it at any depth, arrays included; on anything that is not an object or
    an array it answers [false]. *)
Theorem objectHas_spec (object : value)
  (validator : string -> value -> bool) :
  exists b,
    objectHas object validator = Some b
    /\ (b = true <->
        exists key v, nested object key v /\ validator key v = true).
Proof.
  unfold objectHas.
  destruct (negb (truthy object) || negb (is_container object)) eqn:Hc.
  - exists false. split; [reflexivity|]. split; [discriminate|].
    intros (key & v & Hn & _). exfalso.
    assert (Object_entries object = []) as Hnone
      by (destruct object; try reflexivity; simpl in Hc; discriminate).
    destruct Hn as [Hin|k x Hin _]; rewrite Hnone in Hin; exact Hin.
  - destruct (objectHas_loop_spec validator (S (weight object))
                (rev (Object_entries object))) as (b & Hb & Hiff).
    { rewrite stack_weight_rev, weight_entries. lia. }
    exists b. split; [exact Hb|]. rewrite Hiff. split.
    + intros (k & x & Hin%in_rev & [Hx|(key & v & Hn & Hx)]).
      * exists k, x. split; [now apply nested_here | exact Hx].
      * exists key, v. split; [|exact Hx]. now apply (nested_below _ _ _ k x).
    + intros (key & v & [Hin|k x Hin Hn] & Hx).
      * exists key, v. split; [now apply in_rev in Hin | now left].
      * exists k, x. split; [now apply in_rev in Hin | right; eauto].
Qed.

(** * insert and findById, once more *)

Section StoreMore3.
Context `{Validation} `{Modifiers}.
Variable getUid : nat -> string.

Lemma insert_check_length (t : table) (a : list value) :
  forall seed inserted seed',
    insert_check getUid t a seed = (Ok inserted, seed') ->
    length inserted = length a.
Proof.
  induction a as [|newDoc a IH]; simpl; intros seed inserted seed'.
  - now intros [= <- _].
  - destruct (negb (isObject newDoc)); [discriminate|].
    destruct (isInvalidDoc newDoc); [discriminate|].
    destruct (if truthy (field (spread newDoc) "_id")
              then (spread newDoc, seed)
              else (prop_set (spread newDoc) "_id" (VStr (getUid seed)),
                    S seed)) as [d1 seed1].
    destruct (prop_has t (toPropertyKey (field d1 "_id"))); [discriminate|].
    destruct (insert_check getUid t a seed1) as [[rest|e] seed2] eqn:Hrest;
      simpl; [|discriminate].
    intros [= <- _]. simpl. f_equal. eapply IH, Hrest.
Qed.




(** X22: a document whose [_id] is falsy (absent, [null], [0], the empty
    string) gets a generated identifier: [insert] draws one, sets it as
    [_id] in place of whatever was there, keeps every other field, and
    stores the document under it. *)
Theorem insert_assigns_id (db : LeafDB) (fs : files) (seed : nat) (d : obj) :
  isInvalidDoc (VObj d) = false ->
  truthy (field d "_id") = false ->
  prop_has (data db) (getUid seed) = false ->
  let stored := prop_set d "_id" (VStr (getUid seed)) in
  insert getUid db fs seed (VObj d) false
  = (Resolved VUndef, set_data db (prop_set (data db) (getUid seed) stored),
     fs, S seed)
  /\ field stored "_id" = VStr (getUid seed)
  /\ forall f, f <> "_id" -> field stored f = field d f.
Proof.
  intros Hvalid Hid Hfree stored. split; [|split].
  - unfold insert. simpl. rewrite Hvalid, Hid. simpl.
    rewrite field_set_eq. simpl. rewrite Hfree. simpl.
    now rewrite field_set_eq.
  - apply field_set_eq.
  - intros f Hf. now apply field_set_ne.
Qed.

Lemma findById_loop_valid (t : table) (projection : option (list string))
  (keys : list value) :
  (forall v, exists x, objectProject v projection = Ok x) ->
  Forall (fun key => valid_key key <> None) keys ->
  exists payload, findById_loop t keys projection = Ok payload.
Proof.
  intros Hproj. induction 1 as [|key keys Hkey _ IH]; simpl; [eauto|].
  destruct (valid_key key) as [k|]; [|contradiction].
  destruct (Hproj (table_lookup t k)) as [x ->]. simpl.
  destruct IH as [payload ->]. simpl.
  destruct (truthy x && negb (truthy (member x "$deleted"))); eauto.
Qed.

Lemma findById_loop_invalid (t : table) (projection : option (list string))
  (keys : list value) :
  (forall v, exists x, objectProject v projection = Ok x) ->
  Exists (fun key => valid_key key = None) keys ->
  findById_loop t keys projection = Err InvalidId.
Proof.
  intros Hproj. induction 1 as [key keys Hbad | key keys _ IH]; simpl.
  - now rewrite Hbad.
  - destruct (valid_key key) as [k|]; [|reflexivity].
    destruct (Hproj (table_lookup t k)) as [x ->]. simpl.
    now rewrite IH.
Qed.

(** X23: with a projection that does not throw, [findById] is rejected
    exactly when some listed identifier is not a non-empty string, and then
    with the invalid-identifier error; otherwise it resolves, whatever the
    table holds: a missing identifier is never an error. *)
Theorem findById_rejected_iff (db : LeafDB) (_id : value)
  (projection : option (list string)) :
  (forall v, exists x, objectProject v projection = Ok x) ->
  if forallb (fun key => match valid_key key with
                         | Some _ => true
                         | None => false
                         end) (toArray _id)
  then exists payload, findById db _id projection = Resolved (VArr payload)
  else findById db _id projection = Rejected InvalidId.
Proof.
  intros Hproj. unfold findById.
  destruct (forallb _ (toArray _id)) eqn:Hall.
  - rewrite forallb_forall in Hall.
    destruct (findById_loop_valid (data db) projection (toArray _id) Hproj)
      as [payload ->]; [|eauto].
    apply List.Forall_forall. intros key Hin%Hall.
    now destruct (valid_key key).
  - rewrite (findById_loop_invalid (data db) projection (toArray _id) Hproj);
      [reflexivity|].
    clear -Hall. induction (toArray _id) as [|key keys IH];
      [discriminate|].
    simpl in Hall. destruct (valid_key key) eqn:Hkey.
    + apply Exists_cons_tl, IH, Hall.
    + now apply Exists_cons_hd.
Qed.

End StoreMore3.

(** * What the query operations do to the whole table *)

Lemma prop_get_middle {A : Type} (pre suf : list (string * A)) (k : string)
  (v : A) :
  ~ In k (Object_keys pre) -> prop_get (pre ++ (k, v) :: suf) k = Some v.
Proof.
  unfold Object_keys. induction pre as [|[k0 v0] pre IH]; simpl; intros Hnot.
  - now rewrite String.eqb_refl.
  - destruct (String.eqb_spec k k0) as [->|Hne]; [tauto|]. apply IH. tauto.
Qed.

Lemma prop_replace_middle {A : Type} (pre suf : list (string * A))
  (k : string) (v v' : A) :
  ~ In k (Object_keys pre) ->
  prop_replace (pre ++ (k, v) :: suf) k v' = pre ++ (k, v') :: suf.
Proof.
  unfold Object_keys. induction pre as [|[k0 v0] pre IH]; simpl; intros Hnot.
  - now rewrite String.eqb_refl.
  - destruct (String.eqb_spec k k0) as [->|Hne]; [tauto|].
    f_equal. apply IH. tauto.
Qed.

Lemma prop_set_middle {A : Type} (pre suf : list (string * A)) (k : string)
  (v v' : A) :
  ~ In k (Object_keys pre) ->
  prop_set (pre ++ (k, v) :: suf) k v' = pre ++ (k, v') :: suf.
Proof.
  intros Hnot. unfold prop_set, prop_has.
  rewrite (prop_get_middle pre suf k v Hnot).
  now apply prop_replace_middle.
Qed.

Lemma keys_middle {A : Type} (pre suf : list (string * A)) (k : string)
  (v v' : A) :
  List.NoDup (Object_keys (pre ++ (k, v) :: suf)) ->
  ~ In k (Object_keys pre)
  /\ List.NoDup (Object_keys ((pre ++ [(k, v')]) ++ suf)).
Proof.
  unfold Object_keys. rewrite <- app_assoc. simpl.
  rewrite !map_app. simpl. intros Hnodup. split; [|exact Hnodup].
  apply List.NoDup_remove_2 in Hnodup.
  intros Hin. apply Hnodup, in_or_app. now left.
Qed.

Section Closed.
Context `{Validation} `{Modifiers}.

Lemma delete_loop_closed (query : value) (m : obj -> bool) :
  (forall d, isQueryMatch d query = Ok (m d)) ->
  forall suf pre n,
    List.NoDup (Object_keys (pre ++ suf)) ->
    delete_loop (pre ++ suf) (Object_keys suf) query n
    = (pre ++ map (fun kd => (fst kd,
                              if live (snd kd) && m (snd kd)
                              then tombstone (snd kd) else snd kd)) suf,
       Ok (n + Z.of_nat
                 (length (List.filter (fun d => live d && m d)
                            (Object_values suf))))%Z).
Proof.
  intros Hm. unfold Object_keys, Object_values.
  induction suf as [|[k d] suf IH]; intros pre n Hnodup.
  - simpl. now rewrite Z.add_0_r.
  - destruct (keys_middle pre suf k d d Hnodup) as [Hnot Hsame].
    cbn [map fst delete_loop].
    rewrite (prop_get_middle pre suf k d Hnot).
    cbn [map snd List.filter fst].
    unfold live at 1 3. destruct (deleted d) eqn:Hdel; cbn [negb andb].
    + change (pre ++ (k, d) :: suf) with (pre ++ [(k, d)] ++ suf).
      rewrite app_assoc. rewrite (IH _ n Hsame).
      now rewrite <- app_assoc.
    + rewrite Hm. destruct (m d) eqn:Hmd.
      * rewrite (prop_set_middle pre suf k d (tombstone d) Hnot).
        destruct (keys_middle pre suf k d (tombstone d) Hnodup)
          as [_ Hmarked].
        change (pre ++ (k, tombstone d) :: suf)
          with (pre ++ [(k, tombstone d)] ++ suf).
        rewrite app_assoc. rewrite (IH _ (n + 1)%Z Hmarked).
        rewrite <- app_assoc. cbn [length]. f_equal. f_equal. lia.
      * change (pre ++ (k, d) :: suf) with (pre ++ [(k, d)] ++ suf).
        rewrite app_assoc. rewrite (IH _ n Hsame).
        now rewrite <- app_assoc.
Qed.

(** X24: what [delete] does to the whole table.  With a query that is an
    object and a matcher that does not throw, the call resolves; every
    live document that matches becomes its tombstone, in its place, every
    other entry is exactly what it was, and the count returned is the
    number of live documents that matched. *)
Theorem delete_effect (db : LeafDB) (q : obj) (m : obj -> bool) :
  (forall d, isQueryMatch d (VObj q) = Ok (m d)) ->
  List.NoDup (Object_keys (data db)) ->
  delete db (VObj q)
  = (Resolved
       (VNum (Z.of_nat
                (length (List.filter (fun d => live d && m d)
                           (Object_values (data db)))))),
     set_data db
       (map (fun kd => (fst kd,
                        if live (snd kd) && m (snd kd)
                        then tombstone (snd kd) else snd kd)) (data db))).
Proof.
  intros Hm Hnodup. unfold delete. simpl.
  pose proof (delete_loop_closed (VObj q) m Hm (data db) [] 0%Z Hnodup)
    as Hloop.
  simpl in Hloop. now rewrite Hloop.
Qed.

Lemma update_loop_closed (query upd : value)
  (projection : option (list string)) (m : obj -> bool) (nd : obj -> obj)
  (shown : obj -> value) :
  (forall d, isQueryMatch d query = Ok (m d)) ->
  (forall d, objectProject (VObj d) projection = Ok (shown d)) ->
  forall suf pre,
    (forall k d, In (k, d) suf -> live d = true -> m d = true ->
                 new_doc d upd = Ok (nd d)) ->
    List.NoDup (Object_keys (pre ++ suf)) ->
    update_loop (pre ++ suf) (Object_keys suf) query upd projection
    = (pre ++ map (fun kd => (fst kd,
                              if live (snd kd) && m (snd kd)
                              then prop_set (nd (snd kd)) "_id"
                                     (VStr (fst kd))
                              else snd kd)) suf,
       Ok (map (fun kd => shown (prop_set (nd (snd kd)) "_id"
                                   (VStr (fst kd))))
             (List.filter (fun kd => live (snd kd) && m (snd kd)) suf))).
Proof.
  intros Hm Hshown. unfold Object_keys.
  induction suf as [|[k d] suf IH]; intros pre Hnd Hnodup.
  - reflexivity.
  - destruct (keys_middle pre suf k d d Hnodup) as [Hnot Hsame].
    assert (forall k' d', In (k', d') suf -> live d' = true ->
                          m d' = true -> new_doc d' upd = Ok (nd d'))
      as Hrest by (intros k' d' Hin; apply (Hnd k' d'); now right).
    cbn [map fst update_loop].
    rewrite (prop_get_middle pre suf k d Hnot).
    cbn [map snd List.filter fst].
    unfold live at 1 3. destruct (deleted d) eqn:Hdel; cbn [negb andb].
    + change (pre ++ (k, d) :: suf) with (pre ++ [(k, d)] ++ suf).
      rewrite app_assoc. rewrite (IH _ Hrest Hsame).
      now rewrite <- app_assoc.
    + rewrite Hm. destruct (m d) eqn:Hmd.
      * unfold update_one.
        rewrite (Hnd k d (or_introl eq_refl)), Hshown
          by (unfold live; now rewrite ?Hdel).
        rewrite (prop_set_middle pre suf k d _ Hnot).
        destruct (keys_middle pre suf k d
                    (prop_set (nd d) "_id" (VStr k)) Hnodup)
          as [_ Hstored].
        change (pre ++ (k, prop_set (nd d) "_id" (VStr k)) :: suf)
          with (pre ++ [(k, prop_set (nd d) "_id" (VStr k))] ++ suf).
        rewrite app_assoc. rewrite (IH _ Hrest Hstored).
        now rewrite <- app_assoc.
      * change (pre ++ (k, d) :: suf) with (pre ++ [(k, d)] ++ suf).
        rewrite app_assoc. rewrite (IH _ Hrest Hsame).
        now rewrite <- app_assoc.
Qed.

(** X25: what [update] does to the whole table.  With a query that is an
    object, a valid update, a matcher and a projection that do not throw,
    and a modifier step that succeeds on the live documents of the table
    that match, the call resolves; every live document that matches is
    replaced, in its place, by the new document with [_id] set to its key,
    every other entry is exactly what it was, and the value is the list of
    the projections of the replaced documents, in table order. *)
Theorem update_effect (db : LeafDB) (q u : obj)
  (projection : option (list string)) (m : obj -> bool) (nd : obj -> obj)
  (shown : obj -> value) :
  invalid_update (VObj u) = false ->
  (forall d, isQueryMatch d (VObj q) = Ok (m d)) ->
  (forall k d, In (k, d) (data db) -> live d = true -> m d = true ->
               new_doc d (VObj u) = Ok (nd d)) ->
  (forall d, objectProject (VObj d) projection = Ok (shown d)) ->
  List.NoDup (Object_keys (data db)) ->
  update db (VObj q) (VObj u) projection
  = (Resolved
       (VArr (map (fun kd => shown (prop_set (nd (snd kd)) "_id"
                                      (VStr (fst kd))))
                (List.filter (fun kd => live (snd kd) && m (snd kd))
                   (data db)))),
     set_data db
       (map (fun kd => (fst kd,
                        if live (snd kd) && m (snd kd)
                        then prop_set (nd (snd kd)) "_id" (VStr (fst kd))
                        else snd kd)) (data db))).
Proof.
  intros Hupd Hm Hnd Hshown Hnodup. unfold update. simpl or_default.
  cbn [isObject negb]. rewrite Hupd.
  pose proof (update_loop_closed (VObj q) (VObj u) projection m nd shown
                Hm Hshown (data db) [] Hnd Hnodup) as Hloop.
  simpl in Hloop. now rewrite Hloop.
Qed.

End Closed.

(** * The added statements on the sample instances *)

Section MoreRuns.
Import Sample.
Local Existing Instance SpecModel.validation.
Local Existing Instance SpecModel.modifiers.


Lemma insert_keeps_entries_witness :
  prop_get (data one_live) "a" = Some doc_a
  /\ prop_get
       (data (snd (fst (fst (insert getUid one_live ∅ 0%nat (VObj doc_b)
                               false))))) "a"
     = Some doc_a.
Proof.
  split; [reflexivity|].
  apply (insert_keeps_entries getUid one_live ∅ 0%nat (VObj doc_b) false
           "a" doc_a).
  reflexivity.
Defined.

Lemma insert_taken_id_rejected_witness :
  (isInvalidDoc (VObj doc_a) = false /\ field doc_a "_id" = VStr "a"
   /\ "a" <> "" /\ prop_get (data one_tombstone) "a" = Some doc_a_deleted)
  /\ insert getUid one_tombstone ∅ 0%nat (VObj doc_a) false
     = (Rejected (IdExists "a"), one_tombstone, ∅, 0%nat).
Proof.
  split; [repeat split; discriminate|].
  apply (insert_taken_id_rejected getUid one_tombstone ∅ 0%nat doc_a
           doc_a_deleted "a" false);
    try reflexivity; discriminate.
Defined.



Lemma update_with_id_rejected_witness :
  truthy (member (VObj doc_b) "_id") = true
  /\ (forall _id projection,
         updateById one_live _id (VObj doc_b) projection
         = (Rejected InvalidUpdate, one_live))
  /\ (forall query projection,
         snd (update one_live query (VObj doc_b) projection) = one_live
         /\ exists e,
             fst (update one_live query (VObj doc_b) projection)
             = Rejected e).
Proof.
  split; [reflexivity|].
  apply (update_with_id_rejected one_live (VObj doc_b)). reflexivity.
Defined.


Lemma updateById_replaces_witness :
  ("a" <> "" /\ prop_get (data one_live) "a" = Some doc_a
   /\ deleted doc_a = false
   /\ invalid_update (VObj [("y", VNum 3)]) = false
   /\ hasModifiers (VObj [("y", VNum 3)]) = false)
  /\ exists stored,
      prop_get
        (data (snd (updateById one_live (VStr "a") (VObj [("y", VNum 3)])
                      None))) "a" = Some stored
      /\ field stored "_id" = VStr "a"
      /\ forall f, f <> "_id" -> field stored f = field [("y", VNum 3)] f.
Proof.
  split; [repeat split; discriminate|].
  apply (updateById_replaces one_live "a" doc_a [("y", VNum 3)] None);
    try reflexivity; discriminate.
Defined.

Lemma find_query_live_matches_witness :
  ([("x", VNum 1)] <> ([] : obj)
   /\ (forall d,
          isQueryMatch d (VObj [("x", VNum 1)])
          = Ok (SpecModel.matches d (VObj [("x", VNum 1)])))
   /\ (forall d, objectProject (VObj d) None = Ok (VObj d)))
  /\ find tombstone_and_live (VObj [("x", VNum 1)]) None
     = Resolved
         (VArr (map VObj
                  (List.filter
                     (fun d =>
                        live d && SpecModel.matches d (VObj [("x", VNum 1)]))
                     (Object_values (data tombstone_and_live))))).
Proof.
  split; [split; [discriminate|split; intros d; reflexivity]|].
  apply (find_query_live_matches tombstone_and_live [("x", VNum 1)] None
           (fun d => SpecModel.matches d (VObj [("x", VNum 1)])) VObj);
    [discriminate | intros d; reflexivity | intros d; reflexivity].
Defined.


Lemma delete_twice_witness :
  delete one_live (VObj [("x", VNum 1)])
  = (Resolved (VNum 1), memory [("a", tombstone doc_a)])
  /\ delete (memory [("a", tombstone doc_a)]) (VObj [("x", VNum 1)])
     = (Resolved (VNum 0), memory [("a", tombstone doc_a)]).
Proof.
  split; [reflexivity|].
  apply (delete_twice one_live (memory [("a", tombstone doc_a)])
           (VObj [("x", VNum 1)]) 1%Z).
  reflexivity.
Defined.

Lemma drop_then_load_witness :
  (file (on_disk [("a", doc_a)]) = Some db_file
   /\ root_given (on_disk [("a", doc_a)]) = true)
  /\ let '(c, db', fs') := drop (on_disk [("a", doc_a)]) ∅ in
     c = Resolved VUndef
     /\ data db' = []
     /\ fs' !! db_file = Some ""
     /\ load db' fs' = (Ok [], db', fs').
Proof.
  split; [split; reflexivity|].
  apply (drop_then_load (on_disk [("a", doc_a)]) ∅ db_file); reflexivity.
Defined.




Lemma new_LeafDB_fresh_witness :
  ("root" <> "" /\ "db" <> ""
   /\ (∅ : files) !! ("root" ++ "/" ++ "db" ++ ".txt")%string = None)
  /\ new_LeafDB "db" (Some "root") true false ∅
     = (Ok (mkLeafDB (Some "root") false []
              (Some ("root" ++ "/" ++ "db" ++ ".txt")%string)),
        <[("root" ++ "/" ++ "db" ++ ".txt")%string := ""]> ∅)
  /\ new_LeafDB "db" None true false ∅
     = (Ok (mkLeafDB None false [] None), ∅).
Proof.
  split; [repeat split; try discriminate; apply lookup_empty|].
  apply (new_LeafDB_fresh "db" "root" false true ∅);
    try discriminate; apply lookup_empty.
Defined.

Lemma keeps_well_doc_b : Forall keeps_well [doc_b].
Proof.
  apply List.Forall_cons; [|apply List.Forall_nil].
  repeat split; reflexivity.
Qed.

Lemma persist_then_load_witness :
  (file two_rows = Some db_file /\ root_given two_rows = true
   /\ Forall keeps_well (live_docs (data two_rows)))
  /\ load (mkLeafDB (root two_rows) false [] (file two_rows))
       (snd (persist two_rows ∅))
     = (Ok [],
        set_data (mkLeafDB (root two_rows) false [] (file two_rows))
          (insert_all [] (live_docs (data two_rows))),
        snd (persist two_rows ∅)).
Proof.
  split; [repeat split; try reflexivity; exact keeps_well_doc_b|].
  apply (persist_then_load two_rows ∅ db_file false);
    try reflexivity; exact keeps_well_doc_b.
Defined.

Lemma two_rows_keys : List.NoDup (Object_keys (data two_rows)).
Proof.
  repeat (apply List.NoDup_cons; [simpl; intuition discriminate|]).
  apply List.NoDup_nil.
Qed.

Lemma persist_load_lookup_witness :
  (file two_rows = Some db_file /\ root_given two_rows = true
   /\ Forall keeps_well (live_docs (data two_rows))
   /\ List.NoDup (Object_keys (data two_rows))
   /\ id_names_keyb (data two_rows) = true)
  /\ fst (fst (load (mkLeafDB (root two_rows) false [] (file two_rows))
                 (snd (persist two_rows ∅)))) = Ok []
  /\ prop_get
       (data (snd (fst (load
                          (mkLeafDB (root two_rows) false []
                             (file two_rows))
                          (snd (persist two_rows ∅)))))) "a" =
     match prop_get (data two_rows) "a" with
     | Some d => if live d then Some d else None
     | None => None
     end.
Proof.
  split;
    [repeat split; try reflexivity;
     [exact keeps_well_doc_b | exact two_rows_keys]|].
  apply (persist_load_lookup two_rows ∅ db_file false "a");
    try reflexivity; [exact keeps_well_doc_b | exact two_rows_keys].
Defined.

Lemma persist_load_same_instance_witness :
  (file two_rows = Some db_file /\ root_given two_rows = true
   /\ Forall keeps_well (live_docs (data two_rows))
   /\ List.NoDup (Object_keys (data two_rows))
   /\ id_names_keyb (data two_rows) = true)
  /\ load two_rows (snd (persist two_rows ∅))
     = (Ok [], two_rows, snd (persist two_rows ∅)).
Proof.
  split;
    [repeat split; try reflexivity;
     [exact keeps_well_doc_b | exact two_rows_keys]|].
  apply (persist_load_same_instance two_rows ∅ db_file);
    try reflexivity; [exact keeps_well_doc_b | exact two_rows_keys].
Defined.

Lemma insert_assigns_id_witness :
  (isInvalidDoc (VObj [("x", VNum 1)]) = false
   /\ truthy (field [("x", VNum 1)] "_id") = false
   /\ prop_has (data empty) (getUid 0) = false)
  /\ insert getUid empty ∅ 0%nat (VObj [("x", VNum 1)]) false
     = (Resolved VUndef,
        set_data empty
          (prop_set (data empty) (getUid 0)
             (prop_set [("x", VNum 1)] "_id" (VStr (getUid 0)))),
        ∅, 1%nat)
  /\ field (prop_set [("x", VNum 1)] "_id" (VStr (getUid 0))) "_id"
     = VStr (getUid 0)
  /\ forall f, f <> "_id" ->
       field (prop_set [("x", VNum 1)] "_id" (VStr (getUid 0))) f
       = field [("x", VNum 1)] f.
Proof.
  split; [repeat split; reflexivity|].
  apply (insert_assigns_id getUid empty ∅ 0%nat [("x", VNum 1)]);
    reflexivity.
Defined.

Lemma findById_rejected_iff_witness :
  (forall v, exists x, objectProject v None = Ok x)
  /\ if forallb (fun key => match valid_key key with
                            | Some _ => true
                            | None => false
                            end) (toArray (VArr [VStr "a"; VStr ""]))
     then exists payload,
         findById one_live (VArr [VStr "a"; VStr ""]) None
         = Resolved (VArr payload)
     else findById one_live (VArr [VStr "a"; VStr ""]) None
          = Rejected InvalidId.
Proof.
  split; [intros v; exists v; reflexivity|].
  apply (findById_rejected_iff one_live (VArr [VStr "a"; VStr ""]) None).
  intros v. exists v. reflexivity.
Defined.

Lemma tombstone_and_live_keys :
  List.NoDup (Object_keys (data tombstone_and_live)).
Proof.
  repeat (apply List.NoDup_cons; [simpl; intuition discriminate|]).
  apply List.NoDup_nil.
Qed.

Lemma delete_effect_witness :
  ((forall d,
       isQueryMatch d (VObj []) = Ok (SpecModel.matches d (VObj [])))
   /\ List.NoDup (Object_keys (data tombstone_and_live)))
  /\ delete tombstone_and_live (VObj [])
     = (Resolved
          (VNum (Z.of_nat
                   (length
                      (List.filter
                         (fun d => live d && SpecModel.matches d (VObj []))
                         (Object_values (data tombstone_and_live)))))),
        set_data tombstone_and_live
          (map (fun kd => (fst kd,
                           if live (snd kd)
                              && SpecModel.matches (snd kd) (VObj [])
                           then tombstone (snd kd) else snd kd))
             (data tombstone_and_live))).
Proof.
  split; [split; [intros d; reflexivity|exact tombstone_and_live_keys]|].
  apply (delete_effect tombstone_and_live []
           (fun d => SpecModel.matches d (VObj [])));
    [intros d; reflexivity | exact tombstone_and_live_keys].
Defined.

Lemma two_live_keys : List.NoDup (Object_keys (data two_live)).
Proof.
  repeat (apply List.NoDup_cons; [simpl; intuition discriminate|]).
  apply List.NoDup_nil.
Qed.

Lemma update_effect_witness :
  (invalid_update (VObj add_one) = false
   /\ (forall d,
          isQueryMatch d (VObj []) = Ok (SpecModel.matches d (VObj [])))
   /\ (forall k d,
          In (k, d) (data two_live) -> live d = true ->
          SpecModel.matches d (VObj []) = true ->
          new_doc d (VObj add_one)
          = Ok (match SpecModel.objectModify d (VObj add_one) with
                | Ok x => x
                | Err _ => d
                end))
   /\ (forall d, objectProject (VObj d) None = Ok (VObj d))
   /\ List.NoDup (Object_keys (data two_live)))
  /\ update two_live (VObj []) (VObj add_one) None
     = (Resolved
          (VArr [VObj [("_id", VStr "a"); ("x", VNum 2)];
                 VObj [("_id", VStr "b"); ("x", VNum 1)]]),
        memory [("a", [("_id", VStr "a"); ("x", VNum 2)]);
                ("b", [("_id", VStr "b"); ("x", VNum 1)])]).
Proof.
  assert (forall k d,
             In (k, d) (data two_live) -> live d = true ->
             SpecModel.matches d (VObj []) = true ->
             new_doc d (VObj add_one)
             = Ok (match SpecModel.objectModify d (VObj add_one) with
                   | Ok x => x
                   | Err _ => d
                   end)) as Hadd.
  { intros k d [[= <- <-]|[[= <- <-]|[]]] _ _; reflexivity. }
  split;
    [repeat split; try reflexivity; [exact Hadd | exact two_live_keys]|].
  apply (update_effect two_live [] add_one None
           (fun d => SpecModel.matches d (VObj []))
           (fun d => match SpecModel.objectModify d (VObj add_one) with
                     | Ok x => x
                     | Err _ => d
                     end) VObj);
    try reflexivity; [exact Hadd | exact two_live_keys].
Defined.

End MoreRuns.
